(** * LaBGen-P: the driver of the background generator

    A shallow embedding of [src/LaBGen-P.cpp] ([main]): the handling of the
    command line, the size of the smoothing kernel, the processing loop over
    the decoded frames with its iterator, and the terminal aggregation.

    The headers [History.h], [MotionProba.h], [FrameDifferenceC1L1.h] and
    [Utils.h] are not part of the sources at hand.  The frame difference, the
    filter, the partition into regions and the matrix accessors are taken as
    an interface ([External]); the patches history, whose behaviour several
    properties are about, is modelled from the specification. *)

From Stdlib Require Import Ascii String DecimalString.
From Stdlib Require DecimalPos DecimalZ.
From Stdlib Require Import ZArith List Bool Lia Permutation Sorted.
Import ListNotations.

Open Scope Z_scope.

(** ** Exceptions and results *)

(** [std::runtime_error] carries its message; [EmptyHistory] is the error of
    the aggregation over a region without candidates. *)
Inductive exn : Type :=
| runtime_error (what : string)
| EmptyHistory.

Definition result (A : Type) : Type := (exn + A)%type.

Definition ret {A : Type} (a : A) : result A := inr a.
Definition throw {A : Type} (e : exn) : result A := inl e.
Definition bind {A B : Type} (m : result A) (k : A -> result B) : result B :=
  match m with
  | inl e => inl e
  | inr a => k a
  end.

Notation "x <- m ;; k" := (bind m (fun x => k))
  (at level 61, m at next level, right associativity).

(** ** Command line *)

Module Args.

(** The [variables_map] after [store] and [notify]: [count(name)] of a flag
    is a boolean, a valued option is present or not. *)
Record VarsMap : Type := {
  help : bool;
  input : option string;
  output : option string;
  s_parameter : option Z;
  n_parameter : option Z;
  default : bool;
  visualization : bool
}.

(** The parameters extracted by [main]. *)
Record Params : Type := {
  sequence : string;
  outputPath : string;
  sParam : Z;
  nParam : Z;
  visu : bool
}.

(** "Extract parameters and sanity check", lines 104-149. *)
Definition extract (varsMap : VarsMap) : result Params :=
  match input varsMap with
  | None => throw (runtime_error "You must provide the path of the input sequence!")
  | Some sequence =>
    match output varsMap with
    | None => throw (runtime_error "You must provide the path of the output folder!")
    | Some out =>
      let defaultSet := default varsMap in
      sn <- (if defaultSet then ret (19, 3)
             else
               match s_parameter varsMap with
               | None => throw (runtime_error "You must provide the S parameter!")
               | Some s =>
                 if s <? 1 then throw (runtime_error "The S parameter must be positive!")
                 else
                   match n_parameter varsMap with
                   | None => throw (runtime_error "You must provide the N parameter!")
                   | Some n =>
                     if n <? 1 then throw (runtime_error "The N parameter must be positive!")
                     else ret (s, n)
                   end
               end) ;;
      ret {| sequence := sequence; outputPath := out;
             sParam := fst sn; nParam := snd sn;
             visu := visualization varsMap |}
    end
  end.

(** The four exceptions of the S and N checks. *)
Definition sn_error (e : exn) : Prop :=
  e = runtime_error "You must provide the S parameter!" \/
  e = runtime_error "The S parameter must be positive!" \/
  e = runtime_error "You must provide the N parameter!" \/
  e = runtime_error "The N parameter must be positive!".

Definition with_sn (s n : option Z) (v : VarsMap) : VarsMap :=
  {| help := help v; input := input v; output := output v;
     s_parameter := s; n_parameter := n;
     default := default v; visualization := visualization v |}.

Definition with_visualization (b : bool) (v : VarsMap) : VarsMap :=
  {| help := help v; input := input v; output := output v;
     s_parameter := s_parameter v; n_parameter := n_parameter v;
     default := default v; visualization := b |}.

(** A configuration fault [main] checks for: a missing path, or, without
    the default option, a missing or non-positive S or N. *)
Definition checked_fault (v : VarsMap) : Prop :=
  input v = None \/ output v = None \/
  (default v = false /\
   (s_parameter v = None \/ (exists s, s_parameter v = Some s /\ s < 1) \/
    n_parameter v = None \/ (exists n, n_parameter v = Some n /\ n < 1))).

(** The messages of the six parameter checks of lines 108-145, in the order
    of the checks.  The message of a sequence that does not open is not one
    of them. *)
Definition parameter_messages : list string :=
  ["You must provide the path of the input sequence!"%string;
   "You must provide the path of the output folder!"%string;
   "You must provide the S parameter!"%string;
   "The S parameter must be positive!"%string;
   "You must provide the N parameter!"%string;
   "The N parameter must be positive!"%string].

(** The command line with the default option replaced by explicit values
    of S and N. *)
Definition explicit (s n : Z) (v : VarsMap) : VarsMap :=
  {| help := help v; input := input v; output := output v;
     s_parameter := Some s; n_parameter := Some n;
     default := false; visualization := visualization v |}.

End Args.

(** ** Size of the kernel *)

Module Kernel.

(** [(min(height, width) / nParam) | 1], line 201.  The operands are
    [int32_t]; the division of C++ truncates ([Z.quot]).  None of [min],
    [/] and [|] leaves the range of [int32_t] on operands with
    [nParam >= 1], so no wrap-around is to be written. *)
Definition kernelSize (height width nParam : Z) : Z :=
  Z.lor (Z.quot (Z.min height width) nParam) 1.

(** The formula in the words of the specification:
    [K = max(1, oddify(min(H, W) / N))], where [oddify] "rounds x down to
    the nearest value with its lowest bit set to 1". *)
Definition oddify_down (x : Z) : Z := if Z.odd x then x else x - 1.

Definition spec_kernelSize (H W N : Z) : Z :=
  Z.max 1 (oddify_down (Z.quot (Z.min H W) N)).

Definition int32 (z : Z) : Prop := - 2 ^ 31 <= z < 2 ^ 31.

End Kernel.

(** ** Pixels, regions, images *)

(** A pixel of a [CV_8UC3] matrix: three channels. *)
Record Vec3b : Type := { c0 : Z; c1 : Z; c2 : Z }.

(** A region of interest, a [cv::Rect]. *)
Record Rect : Type := { x : Z; y : Z; width : Z; height : Z }.

(** The estimated background: one pixel value per region, in the order of the
    regions. *)
Definition Image : Type := list (Rect * Vec3b).

(** ** Sorting of channel values and scores *)

Fixpoint insert_sorted (a : Z) (l : list Z) : list Z :=
  match l with
  | [] => [a]
  | b :: t => if a <=? b then a :: l else b :: insert_sorted a t
  end.

Fixpoint sortZ (l : list Z) : list Z :=
  match l with
  | [] => []
  | a :: t => insert_sorted a (sortZ t)
  end.

(** ** The collaborators of [main]

    OpenCV and the classes of the missing headers, as far as [main] calls
    them.  A [cv::Mat] is a frame, a probability map or a filtered map. *)

Record VideoCapture (Mat : Type) : Type := {
  isOpened : bool;
  frame_height : Z;             (* [CV_CAP_PROP_FRAME_HEIGHT], as [int32_t] *)
  frame_width : Z;              (* [CV_CAP_PROP_FRAME_WIDTH], as [int32_t] *)
  read_all : list Mat           (* the frames [decoder.read] delivers *)
}.

Arguments isOpened {Mat} _.
Arguments frame_height {Mat} _.
Arguments frame_width {Mat} _.
Arguments read_all {Mat} _.

Record External : Type := {
  Mat : Type;
  (* [cv::VideoCapture decoder(sequence)] *)
  decoder : string -> VideoCapture Mat;
  (* [Utils::getROIs(height, width)] *)
  getROIs : Z -> Z -> list Rect;
  (* [FrameDifferenceC1L1]: the object and [process(in, out)] *)
  FrameDifferenceC1L1 : Type;
  fdiff_make : FrameDifferenceC1L1;
  fdiff_process : FrameDifferenceC1L1 -> Mat -> Mat -> FrameDifferenceC1L1 * Mat;
  (* [CounterMotionProba filter(k)]: [compute(in, out)] *)
  filter_compute : Z -> Mat -> Mat -> Mat;
  (* [cv::Mat(height, width, CV_32SC1)] and
     [cv::Mat(height, width, filter.getOpenCVEncoding())] *)
  probabilityMap0 : Z -> Z -> Mat;
  filteredProbabilityMap0 : Z -> Z -> Z -> Mat;
  (* [cv::Mat(height, width, CV_8UC3)], not initialised *)
  background0 : Z -> Z -> Image;
  (* [cv::Mat::empty] *)
  empty : Mat -> bool;
  (* the value of a frame and of a filtered map on a region *)
  valueAt : Mat -> Rect -> Vec3b;
  scoreAt : Mat -> Rect -> Z
}.

(** ** The patches history *)

Module History.

(** Modelled from the spec: [PatchesHistory] of [History.h] is missing.
    A candidate is a (pixel value, motion score, insertion order) triple. *)
Record Candidate : Type := { value : Vec3b; score : Z; order : nat }.

(** Modelled from the spec: [PatchesHistory] of [History.h] is missing.
    For every region a collection of at most [capacity] candidates; [clock]
    numbers the calls of [insert], which gives the insertion order. *)
Record PatchesHistory : Type := {
  capacity : nat;
  clock : nat;
  regions : list (Rect * list Candidate)
}.

(** Modelled from the spec: the constructor of [PatchesHistory]
    ([History.h], missing); every region starts without candidates. *)
Definition make (rois : list Rect) (S : Z) : PatchesHistory :=
  {| capacity := Z.to_nat S; clock := 0%nat;
     regions := map (fun r => (r, [])) rois |}.

(** Modelled from the spec: the order in which [PatchesHistory::insert]
    ([History.h], missing) gives candidates up.  [a] is more expendable than
    [b]: a higher score, or the same score and an earlier insertion. *)
Definition more_expendable (a b : Candidate) : bool :=
  (score b <? score a) || ((score a =? score b) && (order a <? order b)%nat).

(** Modelled from the spec: the choice of the worst candidate inside
    [PatchesHistory::insert] ([History.h], missing): "the held Candidate
    with the maximum score (ties broken by earliest insertion order)". *)
Definition worst (cs : list Candidate) : option Candidate :=
  match cs with
  | [] => None
  | c :: t =>
    Some (fold_left (fun w a => if more_expendable a w then a else w) t c)
  end.

(** Modelled from the spec: "remove worst", inside [PatchesHistory::insert]
    ([History.h], missing); a candidate is identified by its insertion
    order. *)
Definition evict (w : Candidate) (cs : list Candidate) : list Candidate :=
  filter (fun c => negb (order c =? order w)%nat) cs.

(** Modelled from the spec: [PatchesHistory::insert] ([History.h], missing)
    on one region.  "If |History[region]| < S: add the new Candidate
    unconditionally.  Else: let worst be [...].  If score < worst.score,
    remove worst and add the new Candidate; otherwise discard the new
    Candidate."  Without a held candidate (S = 0) there is no worst one and
    the candidate is discarded. *)
Definition insert_region (S : nat) (cs : list Candidate) (c : Candidate)
  : list Candidate :=
  if (length cs <? S)%nat then cs ++ [c]
  else
    match worst cs with
    | Some w => if score c <? score w then evict w cs ++ [c] else cs
    | None => cs
    end.

(** Modelled from the spec: [PatchesHistory::insert] ([History.h], missing)
    as [main] calls it, [insert(filteredProbabilityMap, frame)]: "for every
    Region, call insert(region, currentFrame.valueAt(region), score)". *)
Definition insert (E : External) (h : PatchesHistory)
  (segmentationMap currentFrame : Mat E) : PatchesHistory :=
  {| capacity := capacity h;
     clock := S (clock h);
     regions :=
       map (fun rc : Rect * list Candidate =>
              (fst rc,
               insert_region (capacity h) (snd rc)
                 {| value := valueAt E currentFrame (fst rc);
                    score := scoreAt E segmentationMap (fst rc);
                    order := clock h |}))
           (regions h) |}.

(** The history after a sequence of calls of [insert]. *)
Definition inserts (E : External) (h : PatchesHistory)
  (calls : list (Mat E * Mat E)) : PatchesHistory :=
  fold_left (fun h mf => insert E h (fst mf) (snd mf)) calls h.

(** The candidates one region is offered by a sequence of calls, and the
    region's history after them. *)
Definition offers (E : External) (r : Rect) (k : nat)
  (calls : list (Mat E * Mat E)) : list Candidate :=
  map (fun imf : nat * (Mat E * Mat E) =>
         {| value := valueAt E (snd (snd imf)) r;
            score := scoreAt E (fst (snd imf)) r;
            order := fst imf |})
      (combine (seq k (length calls)) calls).

Definition region_run (S : nat) (cs : list Candidate) (new : list Candidate)
  : list Candidate :=
  fold_left (insert_region S) new cs.

(** [cs] holds the lowest candidates among those [offered] to a region of
    capacity [S]: it has [min S (length offered)] of them, and every
    candidate offered and not held scores at least as high as every held
    one. *)
Definition keeps_lowest (S : nat) (offered cs : list Candidate) : Prop :=
  length cs = Nat.min S (length offered) /\
  exists rest, Permutation offered (cs ++ rest) /\
               forall a b, In a cs -> In b rest -> score a <= score b.

(** [c] is at most as expendable as [w]. *)
Definition below (c w : Candidate) : Prop :=
  score c < score w \/ (score c = score w /\ (order w <= order c)%nat).

(** [w] is the candidate of [cs] to evict: it is held, no held candidate
    scores higher, and among the held candidates of its score it is the
    oldest. *)
Definition is_worst (w : Candidate) (cs : list Candidate) : Prop :=
  In w cs /\
  forall c, In c cs ->
    score c <= score w /\ (score c = score w -> (order w <= order c)%nat).

(** [m] is the lower median of [vals]: the element of rank
    [(n - 1) / 2] in sorted order; for an even [n] the element after it,
    the other middle one, is not smaller. *)
Definition is_lower_median (vals : list Z) (m : Z) : Prop :=
  exists sorted,
    StronglySorted Z.le sorted /\ Permutation sorted vals /\
    nth_error sorted ((length vals - 1) / 2) = Some m /\
    (Nat.even (length vals) = true ->
     S ((length vals - 1) / 2) = (length vals / 2)%nat /\
     exists m', nth_error sorted (length vals / 2) = Some m' /\ m <= m').

Definition channels : list (Vec3b -> Z) := [c0; c1; c2].

(** A candidate of score 0 whose three channels have the same value. *)
Definition gray (v : Z) (o : nat) : Candidate :=
  {| value := {| c0 := v; c1 := v; c2 := v |}; score := 0; order := o |}.

(** Modelled from the spec: the median policy of [PatchesHistory::median]
    ([History.h], missing).  The lower median: the element of rank
    [(n - 1) / 2] of the sorted values, which for an even [n] is the lower of
    the two middle ones. *)
Definition lower_median (l : list Z) : Z :=
  nth ((length l - 1) / 2) (sortZ l) 0.

(** Modelled from the spec: [PatchesHistory::median] ([History.h], missing)
    on one region: the median of each channel on its own; no value is made
    up for a region without candidates. *)
Definition median_region (cs : list Candidate) : result Vec3b :=
  match cs with
  | [] => throw EmptyHistory
  | _ :: _ =>
    ret {| c0 := lower_median (map (fun c => c0 (value c)) cs);
           c1 := lower_median (map (fun c => c1 (value c)) cs);
           c2 := lower_median (map (fun c => c2 (value c)) cs) |}
  end.

(** Modelled from the spec: [PatchesHistory::median] ([History.h], missing)
    over the regions in order, "one pixel per Region". *)
Fixpoint median_regions (rs : list (Rect * list Candidate)) : result Image :=
  match rs with
  | [] => ret []
  | (r, cs) :: t =>
    v <- median_region cs ;;
    img <- median_regions t ;;
    ret ((r, v) :: img)
  end.

(** Modelled from the spec: [PatchesHistory::median] ([History.h], missing).
    The specification's [aggregate()] is a function of the history alone;
    the second argument of the call sites ([sParam]) has no part in it. *)
Definition median (h : PatchesHistory) (size : Z) : result Image :=
  median_regions (regions h).

End History.

(** ** The driver *)

Module Driver.

(** Undefined behaviour [main] can run into. *)
Inductive Undefined : Type :=
| PastTheEnd      (* [++it] or [*it] on an iterator at or beyond [end()] *)
| NullPointer.    (* [fdiff->process] on the empty [shared_ptr] *)

(** How a run ends. *)
Inductive Exit : Type :=
| Success (written : option (string * Image))   (* [EXIT_SUCCESS] *)
| Uncaught (e : exn)
| UndefinedBehaviour (u : Undefined)
| OutOfFuel.

Definition string_of_Z (z : Z) : string := NilZero.string_of_int (Z.to_int z).

(** An iterator of [frames] is an index; [end()] is the length.  Only an
    iterator before [end()] may be incremented. *)
Definition incr (last : nat) (i : nat) : option nat :=
  if (i <? last)%nat then Some (S i) else None.

Section WithExternal.

Variable E : External.

(** The calls to the collaborators, in order (of the console output only
    the message of the first frame). *)
Inductive Event : Type :=
| Cout (s : string)
| Process (frame : Mat E)             (* [fdiff->process] *)
| Imshow (winname : string)
| Compute                             (* [filter.compute] *)
| Insert (frame : Mat E)              (* [history->insert] *)
| Median                              (* [history->median] *)
| WaitKey (delay : Z)
| Imwrite (file : string) (img : Image)
| DestroyAllWindows.

Record Outcome : Type := { events : list Event; exit : Exit }.

(** The variables of the processing loop. *)
Record State : Type := mkState {
  it : nat;
  firstFrame : bool;
  numFrame : Z;
  fdiff : option (FrameDifferenceC1L1 E);
  probabilityMap : Mat E;
  filteredProbabilityMap : Mat E;
  history : History.PatchesHistory;
  background : Image;
  trace : list Event
}.

Definition set_it (i : nat) (st : State) : State :=
  mkState i (firstFrame st) (numFrame st) (fdiff st) (probabilityMap st)
          (filteredProbabilityMap st) (history st) (background st) (trace st).

Inductive Flow : Type :=
| Normal (st : State)
| Raise (e : exn) (st : State)
| Undef (u : Undefined) (st : State)
| Fuel.

Section Loop.

Variable frames : list (Mat E).
Variable visualization : bool.
Variable sParam : Z.
Variable kernel : Z.

(** The body of the [for] loop, lines 223-268, up to [continue] or the
    end of the body. *)
Definition body (st : State) : Flow :=
  match nth_error frames (it st) with
  | None => Undef PastTheEnd st
  | Some frame =>
    let numFrame' := numFrame st + 1 in
    match (if firstFrame st then Some (fdiff_make E) else fdiff st) with
    | None => Undef NullPointer st
    | Some fd =>
      let fp := fdiff_process E fd frame (probabilityMap st) in
      let pm := snd fp in
      let tr1 :=
        trace st ++ [Process frame] ++
        (if visualization
         then Imshow "Input video" ::
              (if negb (empty E pm) then [Imshow "Probability map"] else [])
         else []) in
      if firstFrame st then
        match incr (length frames) (it st) with
        | None => Undef PastTheEnd st
        | Some it' =>
          Normal (mkState it' false numFrame' (Some (fst fp)) pm
                    (filteredProbabilityMap st) (history st)
                    (background st)
                    (tr1 ++ [Cout "Skipping first frame..."]))
        end
      else
        let fpm :=
          if negb (empty E pm)
          then filter_compute E kernel pm (filteredProbabilityMap st)
          else filteredProbabilityMap st in
        let tr2 :=
          tr1 ++
          (if negb (empty E pm)
           then Compute ::
                (if visualization
                 then [Imshow "Filtered probability map"; WaitKey 1]
                 else [])
           else []) in
        let h := History.insert E (history st) fpm frame in
        let tr3 := tr2 ++ [Insert frame] in
        if visualization then
          match History.median h sParam with
          | inl e =>
            Raise e (mkState (it st) false numFrame' (Some (fst fp)) pm
                       fpm h (background st) (tr3 ++ [Median]))
          | inr bg =>
            Normal (mkState (it st) false numFrame' (Some (fst fp)) pm
                      fpm h bg
                      (tr3 ++ [Median; Imshow "Estimated background";
                               WaitKey 1]))
          end
        else
          Normal (mkState (it st) false numFrame' (Some (fst fp)) pm
                    fpm h (background st) tr3)
    end
  end.

(** [for (it = frames.begin(), end = frames.end(); it != end; ++it)]. *)
Fixpoint loop (fuel : nat) (st : State) : Flow :=
  match fuel with
  | O => Fuel
  | S fuel' =>
    if (it st =? length frames)%nat then Normal st
    else
      match body st with
      | Normal st' =>
        match incr (length frames) (it st') with
        | None => Undef PastTheEnd st'
        | Some i => loop fuel' (set_it i st')
        end
      | other => other
      end
  end.

End Loop.

(** The initial values of the loop's variables, lines 194-217. *)
Definition initial (height width : Z) (sParam nParam : Z) : State :=
  let rois := getROIs E height width in
  let kernel := Kernel.kernelSize height width nParam in
  mkState 0%nat true (-1) None
    (probabilityMap0 E height width)
    (filteredProbabilityMap0 E height width kernel)
    (History.make rois sParam)
    (background0 E height width) [].

(** "Processing", lines 188-291: the loop over the frames read from the
    opened sequence, then the computation and the writing of the
    background. *)
Definition processing (p : Args.Params) (dec : VideoCapture (Mat E))
  : Outcome :=
  let sParam := Args.sParam p in
  let nParam := Args.nParam p in
  let visualization := Args.visu p in
  let height := frame_height dec in
  let width := frame_width dec in
  let frames := read_all dec in
  let kernel := Kernel.kernelSize height width nParam in
  match loop frames visualization sParam kernel
             (S (length frames)) (initial height width sParam nParam) with
  | Normal st =>
    let outputFile :=
      (Args.outputPath p ++ "/" ++ "output" ++ "_" ++
       string_of_Z sParam ++ "_" ++ string_of_Z nParam ++ ".png")%string in
    match History.median (history st) sParam with
    | inl e => {| events := trace st ++ [Median]; exit := Uncaught e |}
    | inr bg =>
      {| events :=
           trace st ++ [Median; Imwrite outputFile bg] ++
           (if visualization then [WaitKey 0; DestroyAllWindows] else []);
         exit := Success (Some (outputFile, bg)) |}
    end
  | Raise e st => {| events := trace st; exit := Uncaught e |}
  | Undef u st => {| events := trace st; exit := UndefinedBehaviour u |}
  | Fuel => {| events := []; exit := OutOfFuel |}
  end.

(** [main] after the parsing of the command line. *)
Definition main (varsMap : Args.VarsMap) : Outcome :=
  if Args.help varsMap then {| events := []; exit := Success None |}
  else
    match Args.extract varsMap with
    | inl e => {| events := []; exit := Uncaught e |}
    | inr p =>
      let sequence := Args.sequence p in
      let dec := decoder E sequence in
      if negb (isOpened dec) then
        {| events := [];
           exit := Uncaught (runtime_error
                     ("Cannot open the '" ++ sequence ++ "' sequence.")%string) |}
      else processing p dec
    end.

(** Two states of the loop that agree on everything but the background
    shown and the trace. *)
Definition same_core (a b : State) : Prop :=
  it a = it b /\ firstFrame a = firstFrame b /\ fdiff a = fdiff b /\
  probabilityMap a = probabilityMap b /\
  filteredProbabilityMap a = filteredProbabilityMap b /\
  history a = history b.

(** The frames handed to [history->insert], in order. *)
Definition inserted (tr : list Event) : list (Mat E) :=
  flat_map (fun e => match e with Insert f => [f] | _ => [] end) tr.

(** The frames handed to [fdiff->process], in order. *)
Definition processed (tr : list Event) : list (Mat E) :=
  flat_map (fun e => match e with Process f => [f] | _ => [] end) tr.

End WithExternal.

Arguments Cout {E} s.
Arguments Process {E} frame.
Arguments Imshow {E} winname.
Arguments Compute {E}.
Arguments Insert {E} frame.
Arguments Median {E}.
Arguments WaitKey {E} delay.
Arguments Imwrite {E} file img.
Arguments DestroyAllWindows {E}.
Arguments events {E} o.
Arguments exit {E} o.
Arguments it {E} s.
Arguments firstFrame {E} s.
Arguments numFrame {E} s.
Arguments fdiff {E} s.
Arguments probabilityMap {E} s.
Arguments filteredProbabilityMap {E} s.
Arguments history {E} s.
Arguments background {E} s.
Arguments trace {E} s.
Arguments Normal {E} st.
Arguments Raise {E} e st.
Arguments Undef {E} u st.
Arguments Fuel {E}.
Arguments set_it {E} i st.
Arguments same_core {E} a b.
Arguments inserted {E} tr.
Arguments processed {E} tr.

End Driver.

(** ** The loop as a pipeline

    What one passage of the loop's body does to the variables that carry
    over to the next frame, apart from the iterator, the background shown
    and the trace. *)

Module Pipeline.

(** The name of the file [main] writes, lines 272-275. *)
Definition outputFile (output : string) (sParam nParam : Z) : string :=
  (output ++ "/" ++ "output" ++ "_" ++
   Driver.string_of_Z sParam ++ "_" ++ Driver.string_of_Z nParam ++ ".png")%string.

(** A character that is neither of the two separators of the file name. *)
Definition digit_or_minus (c : Ascii.ascii) : Prop :=
  c <> "_"%char /\ c <> "."%char.

(** The calls that show something or wait for a key: [imshow],
    [cvWaitKey], [cvDestroyAllWindows]. *)
Definition window_call {E : External} (e : Driver.Event E) : bool :=
  match e with
  | Driver.Imshow _ | Driver.WaitKey _ | Driver.DestroyAllWindows => true
  | _ => false
  end.

(** A trace without such calls. *)
Definition quiet {E : External} (tr : list (Driver.Event E)) : Prop :=
  Forall (fun e => window_call e = false) tr.

Section WithExternal.

Variable E : External.

(** The frame difference object, the probability map, the filtered map and
    the history. *)
Record Stage : Type := {
  s_fdiff : FrameDifferenceC1L1 E;
  s_probabilityMap : Mat E;
  s_filteredProbabilityMap : Mat E;
  s_history : History.PatchesHistory
}.

(** The first frame, lines 226-248: a fresh frame difference processes it;
    nothing is filtered, nothing inserted. *)
Definition first (frame pm0 fpm0 : Mat E) (h0 : History.PatchesHistory)
  : Stage :=
  let fp := fdiff_process E (fdiff_make E) frame pm0 in
  {| s_fdiff := fst fp; s_probabilityMap := snd fp;
     s_filteredProbabilityMap := fpm0; s_history := h0 |}.

(** A later frame, lines 230 and 250-261: frame difference, filter unless
    the probability map is empty, insertion. *)
Definition later (kernel : Z) (s : Stage) (frame : Mat E) : Stage :=
  let fp := fdiff_process E (s_fdiff s) frame (s_probabilityMap s) in
  let pm := snd fp in
  let fpm :=
    if negb (empty E pm)
    then filter_compute E kernel pm (s_filteredProbabilityMap s)
    else s_filteredProbabilityMap s in
  {| s_fdiff := fst fp; s_probabilityMap := pm;
     s_filteredProbabilityMap := fpm;
     s_history := History.insert E (s_history s) fpm frame |}.

(** The stage a state of the loop is in, once the frame difference
    exists. *)
Definition stage_of (st : Driver.State E) : option Stage :=
  match Driver.fdiff st with
  | None => None
  | Some fd =>
    Some {| s_fdiff := fd;
            s_probabilityMap := Driver.probabilityMap st;
            s_filteredProbabilityMap := Driver.filteredProbabilityMap st;
            s_history := Driver.history st |}
  end.

End WithExternal.

Arguments s_fdiff {E} s.
Arguments s_probabilityMap {E} s.
Arguments s_filteredProbabilityMap {E} s.
Arguments s_history {E} s.
Arguments stage_of {E} st.

End Pipeline.

(** ** A small instance of the collaborators

    Frames and maps are uniform: a [Mat] is the one level all its pixels
    have.  The regions are the pixels. *)

Definition pixel_rois (height width : Z) : list Rect :=
  flat_map (fun r => map (fun c => {| x := Z.of_nat c; y := Z.of_nat r;
                                      width := 1; height := 1 |})
                         (seq 0 (Z.to_nat width)))
           (seq 0 (Z.to_nat height)).

Definition uniform (h w : Z) (frames : list Z) : External :=
  {| Mat := Z;
     decoder := fun _ => {| isOpened := true; frame_height := h;
                            frame_width := w; read_all := frames |};
     getROIs := pixel_rois;
     FrameDifferenceC1L1 := option Z;
     fdiff_make := None;
     fdiff_process := fun fd frame out =>
       (Some frame, match fd with None => 0 | Some prev => Z.abs (frame - prev) end);
     filter_compute := fun k pm _ => pm * k * k;
     probabilityMap0 := fun _ _ => 0;
     filteredProbabilityMap0 := fun _ _ _ => 0;
     background0 := fun _ _ => [];
     empty := fun _ => false;
     valueAt := fun m _ => {| c0 := m; c1 := m; c2 := m |};
     scoreAt := fun m _ => m |}.

(** The collaborators [E] with a sequence that opens and delivers [frames]
    of the size [h] x [w]. *)
Definition with_frames (E : External) (h w : Z) (frames : list (Mat E))
  : External :=
  {| Mat := Mat E;
     decoder := fun _ => {| isOpened := true; frame_height := h;
                            frame_width := w; read_all := frames |};
     getROIs := getROIs E;
     FrameDifferenceC1L1 := FrameDifferenceC1L1 E;
     fdiff_make := fdiff_make E;
     fdiff_process := fdiff_process E;
     filter_compute := filter_compute E;
     probabilityMap0 := probabilityMap0 E;
     filteredProbabilityMap0 := filteredProbabilityMap0 E;
     background0 := background0 E;
     empty := empty E;
     valueAt := valueAt E;
     scoreAt := scoreAt E |}.

Definition cmdline (s n : option Z) (dflt visu : bool) : Args.VarsMap :=
  {| Args.help := false; Args.input := Some "in.avi"%string;
     Args.output := Some "out"%string;
     Args.s_parameter := s; Args.n_parameter := n;
     Args.default := dflt; Args.visualization := visu |}.

(** * Properties *)

(** ** The size of the kernel *)

Module KernelFacts.
Import Kernel.

Lemma lor_1 (q : Z) : Z.lor q 1 = if Z.odd q then q else q + 1.
Proof.
  apply Z.bits_inj'. intros n Hn.
  rewrite Z.lor_spec.
  destruct (Z.eq_dec n 0) as [->|Hne].
  - rewrite Z.bit0_odd. simpl (Z.odd 1). rewrite orb_true_r.
    destruct (Z.odd q) eqn:Hq.
    + now rewrite Z.bit0_odd.
    + now rewrite Z.bit0_odd, Z.odd_add, Hq.
  - assert (Hm : exists m, 0 <= m /\ n = Z.succ m) by (exists (n - 1); lia).
    destruct Hm as (m & Hm & ->).
    replace (Z.testbit 1 (Z.succ m)) with false.
    2:{ symmetry. change 1 with (2 * 0 + 1). rewrite Z.testbit_odd_succ by lia.
        apply Z.bits_0. }
    rewrite orb_false_r.
    destruct (Z.odd q) eqn:Hq; [reflexivity|].
    assert (He : Z.even q = true) by (rewrite <- Z.negb_odd, Hq; reflexivity).
    apply Z.even_spec in He. destruct He as (a & ->).
    rewrite Z.testbit_even_succ, Z.testbit_odd_succ by lia. reflexivity.
Qed.

Lemma quotient_nonneg (H W N : Z) :
  1 <= H -> 1 <= W -> 1 <= N ->
  0 <= Z.quot (Z.min H W) N <= Z.min H W.
Proof.
  intros HH HW HN. rewrite Z.quot_div_nonneg by lia.
  split.
  - apply Z.div_pos; lia.
  - apply Z.div_le_upper_bound; nia.
Qed.

(** The kernel size stays an [int32_t]. *)
Lemma kernelSize_int32 (H W N : Z) :
  1 <= H -> 1 <= W -> 1 <= N -> int32 H -> int32 W ->
  int32 (kernelSize H W N).
Proof.
  intros HH HW HN [_ H1] [_ H2]. unfold kernelSize, int32.
  pose proof (quotient_nonneg H W N HH HW HN) as Hq.
  rewrite lor_1.
  destruct (Z.odd (Z.quot (Z.min H W) N)) eqn:Ho; [lia|].
  assert (Z.quot (Z.min H W) N <> 2 ^ 31 - 1).
  { intros Heq. rewrite Heq in Ho. discriminate Ho. }
  lia.
Qed.

(** C3, as the specification words it, fails: with a 4x4 frame and N = 1
    the quotient is 4; the code sets the lowest bit and obtains 5, while
    rounding 4 down to an odd value gives 3. *)
Lemma kernel_rounds_up_not_down :
  1 <= 4 /\ 1 <= 1 /\
  kernelSize 4 4 1 = 5 /\ spec_kernelSize 4 4 1 = 3 /\
  kernelSize 4 4 1 <> spec_kernelSize 4 4 1.
Proof. repeat split; try lia; vm_compute; congruence. Qed.

(** C3, amended: for H, W, N >= 1 the window size is the quotient
    [q = min(H, W) / N] with its lowest bit set: [q] itself when [q] is
    odd and [q + 1] when [q] is even (an even quotient is rounded up, and 0
    becomes 1). *)
Theorem kernelSize_sets_lowest_bit (H W N : Z) :
  1 <= H -> 1 <= W -> 1 <= N ->
  let q := Z.min H W / N in
  kernelSize H W N = (if Z.even q then q + 1 else q) /\
  kernelSize H W N = Z.max 1 (2 * (q / 2) + 1).
Proof.
  intros HH HW HN q. unfold kernelSize.
  rewrite Z.quot_div_nonneg by lia. fold q.
  assert (Hq : 0 <= q) by (apply Z.div_pos; lia).
  clearbody q.
  rewrite lor_1, <- Z.negb_odd.
  pose proof (Z.div_mod q 2 ltac:(lia)) as Hdm.
  pose proof (Z.mod_pos_bound q 2 ltac:(lia)) as Hb.
  assert (0 <= q / 2) by (apply Z.div_pos; lia).
  destruct (Z.odd q) eqn:Ho; cbn [negb]; split; try reflexivity.
  - apply Z.odd_spec in Ho. destruct Ho as (a & Ha). lia.
  - assert (He : Z.even q = true) by (rewrite <- Z.negb_odd, Ho; reflexivity).
    apply Z.even_spec in He. destruct He as (a & Ha). lia.
Qed.

Lemma kernelSize_sets_lowest_bit_witness :
  kernelSize 4 4 1 = 5 /\ kernelSize 480 640 3 = 161 /\ kernelSize 2 5 3 = 1.
Proof.
  split; [|split].
  - exact (proj1 (kernelSize_sets_lowest_bit 4 4 1 ltac:(lia) ltac:(lia) ltac:(lia))).
  - exact (proj1 (kernelSize_sets_lowest_bit 480 640 3 ltac:(lia) ltac:(lia) ltac:(lia))).
  - exact (proj1 (kernelSize_sets_lowest_bit 2 5 3 ltac:(lia) ltac:(lia) ltac:(lia))).
Defined.

(** C7: for H, W, N >= 1 the window size is odd and at least 1. *)
Theorem kernelSize_odd_positive (H W N : Z) :
  1 <= H -> 1 <= W -> 1 <= N ->
  Z.odd (kernelSize H W N) = true /\ 1 <= kernelSize H W N.
Proof.
  intros HH HW HN. unfold kernelSize.
  pose proof (quotient_nonneg H W N HH HW HN) as Hq.
  rewrite lor_1.
  destruct (Z.odd (Z.quot (Z.min H W) N)) eqn:Ho.
  - split; [assumption|].
    assert (Z.quot (Z.min H W) N <> 0) by (intros Heq; rewrite Heq in Ho; discriminate).
    lia.
  - split; [|lia]. rewrite Z.odd_add, Ho. reflexivity.
Qed.

Lemma kernelSize_odd_positive_witness :
  Z.odd (kernelSize 480 640 3) = true /\ 1 <= kernelSize 480 640 3.
Proof.
  apply (kernelSize_odd_positive 480 640 3); lia.
Defined.

End KernelFacts.

(** ** The command line *)

Module ArgsFacts.
Import Args.

Lemma extract_fault (v : VarsMap) :
  checked_fault v -> exists what, extract v = inl (runtime_error what).
Proof.
  unfold checked_fault, extract.
  intros [Hi | [Ho | (Hd & Hsn)]].
  - rewrite Hi. eexists; reflexivity.
  - rewrite Ho. destruct (input v); eexists; reflexivity.
  - rewrite Hd.
    destruct (input v) as [i|]; [|eexists; reflexivity].
    destruct (output v) as [o|]; [|eexists; reflexivity].
    destruct Hsn as [Hs | [(s & Hs & Hlt) | [Hn | (n & Hn & Hlt)]]].
    + rewrite Hs. eexists; reflexivity.
    + rewrite Hs. apply Z.ltb_lt in Hlt. rewrite Hlt. eexists; reflexivity.
    + rewrite Hn. destruct (s_parameter v) as [s|]; [|eexists; reflexivity].
      destruct (s <? 1); eexists; reflexivity.
    + rewrite Hn. apply Z.ltb_lt in Hlt. rewrite Hlt.
      destruct (s_parameter v) as [s|]; [|eexists; reflexivity].
      destruct (s <? 1); eexists; reflexivity.
Qed.

(** What [extract] accepts is checked: the paths are there, and S and N are
    the defaults or the positive values given. *)
Lemma extract_ok (v : VarsMap) (p : Params) :
  extract v = inr p ->
  1 <= sParam p /\ 1 <= nParam p /\
  input v = Some (sequence p) /\ output v = Some (outputPath p) /\
  visu p = visualization v.
Proof.
  unfold extract.
  destruct (input v) as [i|]; [|discriminate].
  destruct (output v) as [o|]; [|discriminate].
  destruct (default v).
  - cbn. intros [= <-]. cbn. repeat split; lia.
  - destruct (s_parameter v) as [s|]; [|discriminate].
    destruct (s <? 1) eqn:Hs; [discriminate|].
    destruct (n_parameter v) as [n|]; [|discriminate].
    destruct (n <? 1) eqn:Hn; [discriminate|].
    cbn. intros [= <-]. cbn.
    apply Z.ltb_ge in Hs, Hn. repeat split; lia.
Qed.

(** C6, as stated, fails: with the default option, an S of 0 and an N of
    -2 on the command line are not rejected; the parameters are extracted
    (as 19 and 3) and the run writes its image. *)
Lemma default_accepts_nonpositive_S_N :
  let v := cmdline (Some 0) (Some (-2)) true false in
  (exists s, s_parameter v = Some s /\ s < 1) /\
  (exists n, n_parameter v = Some n /\ n < 1) /\
  extract v = inr {| sequence := "in.avi"; outputPath := "out";
                     sParam := 19; nParam := 3; visu := false |} /\
  (forall e, Driver.exit (Driver.main (uniform 1 1 [10; 20; 30]) v)
             <> Driver.Uncaught e).
Proof.
  cbv zeta. split; [|split; [|split]].
  - exists 0. split; [reflexivity|lia].
  - exists (-2). split; [reflexivity|lia].
  - reflexivity.
  - intros e. vm_compute. discriminate.
Qed.

Lemma extract_fault_message (v : VarsMap) :
  checked_fault v ->
  exists what, In what parameter_messages /\ extract v = inl (runtime_error what).
Proof.
  unfold checked_fault, extract, parameter_messages.
  intros [Hi | [Ho | (Hd & Hsn)]].
  - rewrite Hi. eexists; split; [|reflexivity]. cbn; tauto.
  - rewrite Ho. destruct (input v);
      (eexists; split; [|reflexivity]; cbn; tauto).
  - rewrite Hd.
    destruct (input v) as [i|];
      [|eexists; split; [|reflexivity]; cbn; tauto].
    destruct (output v) as [o|];
      [|eexists; split; [|reflexivity]; cbn; tauto].
    destruct Hsn as [Hs | [(s & Hs & Hlt) | [Hn | (n & Hn & Hlt)]]].
    + rewrite Hs. eexists; split; [|reflexivity]. cbn; tauto.
    + rewrite Hs. apply Z.ltb_lt in Hlt. rewrite Hlt.
      eexists; split; [|reflexivity]. cbn; tauto.
    + rewrite Hn. destruct (s_parameter v) as [s|];
        [|eexists; split; [|reflexivity]; cbn; tauto].
      destruct (s <? 1); (eexists; split; [|reflexivity]; cbn; tauto).
    + rewrite Hn. apply Z.ltb_lt in Hlt. rewrite Hlt.
      destruct (s_parameter v) as [s|];
        [|eexists; split; [|reflexivity]; cbn; tauto].
      destruct (s <? 1); (eexists; split; [|reflexivity]; cbn; tauto).
Qed.

(** C6, amended: unless the help option is given, a missing input or
    output path, or, when the default option is not supplied, a missing or
    less-than-1 S or N, makes [main] throw the [runtime_error] of one of its
    six parameter checks.  The message is fixed by the command line alone:
    it is thrown whatever the sequence and the other collaborators are, also
    for a sequence that would not open, and no collaborator has been called;
    so the failure comes before the sequence is opened and before any frame
    is processed.  With the default option the S and N of the command line
    are neither required nor checked: whatever they are, also absent or
    below 1, the extraction succeeds with S = 19 and N = 3 and the run is the
    same run. *)
Theorem configuration_fault_detected_first (v : VarsMap) :
  help v = false ->
  (checked_fault v ->
   exists what,
     In what parameter_messages /\
     extract v = inl (runtime_error what) /\
     forall E : External,
       Driver.main E v =
       {| Driver.events := [];
          Driver.exit := Driver.Uncaught (runtime_error what) |}) /\
  (default v = true ->
   forall i o, input v = Some i -> output v = Some o ->
   forall s n,
     ~ checked_fault (with_sn s n v) /\
     extract (with_sn s n v) =
     inr {| sequence := i; outputPath := o; sParam := 19; nParam := 3;
            visu := visualization v |} /\
     forall E : External, Driver.main E (with_sn s n v) = Driver.main E v).
Proof.
  intros Hh. split.
  - intros Hf. destruct (extract_fault_message v Hf) as (what & Hin & Hw).
    exists what. split; [exact Hin|]. split; [exact Hw|].
    intros E. unfold Driver.main. rewrite Hh, Hw. reflexivity.
  - intros Hd i o Hi Ho s n.
    assert (Hx : forall s' n',
               extract (with_sn s' n' v) =
               inr {| sequence := i; outputPath := o; sParam := 19;
                      nParam := 3; visu := visualization v |}).
    { intros s' n'. unfold extract, with_sn. cbn. rewrite Hi, Ho, Hd.
      reflexivity. }
    split; [|split].
    + unfold checked_fault, with_sn. cbn. rewrite Hi, Ho, Hd.
      intros [H | [H | (H & _)]]; discriminate.
    + apply Hx.
    + intros E. unfold Driver.main.
      assert (Hv : extract v = extract (with_sn s n v)).
      { unfold extract, with_sn. cbn. rewrite Hi, Ho, Hd. reflexivity. }
      rewrite Hv. reflexivity.
Qed.

Lemma configuration_fault_detected_first_witness :
  let v := cmdline (Some 0) (Some 3) false false in
  exists what,
    In what parameter_messages /\
    extract v = inl (runtime_error what) /\
    forall E : External,
      Driver.main E v =
      {| Driver.events := [];
         Driver.exit := Driver.Uncaught (runtime_error what) |}.
Proof.
  intros v.
  apply (proj1 (configuration_fault_detected_first v eq_refl)).
  right. right. split; [reflexivity|].
  right. left. exists 0. split; [reflexivity|lia].
Defined.

(** C10: with the default option and both paths given, the parameters
    extracted are S = 19 and N = 3, whatever S and N the command line
    carries.  None of the four S/N checks can throw, and the whole run is
    the run of the explicit parameters 19 and 3. *)
Theorem default_uses_19_3 (E : External) (v : VarsMap) :
  default v = true ->
  (forall i o, input v = Some i -> output v = Some o ->
     extract v =
     inr {| sequence := i; outputPath := o; sParam := 19; nParam := 3;
            visu := visualization v |} /\
     forall s n,
       extract (with_sn s n v) =
       inr {| sequence := i; outputPath := o; sParam := 19; nParam := 3;
              visu := visualization v |}) /\
  (forall p, extract v = inr p -> sParam p = 19 /\ nParam p = 3) /\
  (forall e, extract v = inl e -> ~ sn_error e) /\
  (forall s n, extract (with_sn s n v) = extract v) /\
  (forall s n, Driver.main E (with_sn s n v) = Driver.main E v) /\
  Driver.main E v = Driver.main E (explicit 19 3 v).
Proof.
  intros Hd.
  assert (Hsn : forall s n, extract (with_sn s n v) = extract v).
  { intros s n. unfold extract, with_sn. cbn. rewrite Hd. reflexivity. }
  split; [|split; [|split; [|split; [|split]]]].
  - intros i o Hi Ho.
    assert (Hx : extract v =
                 inr {| sequence := i; outputPath := o; sParam := 19;
                        nParam := 3; visu := visualization v |}).
    { unfold extract. rewrite Hi, Ho, Hd. reflexivity. }
    split; [exact Hx|]. intros s n. now rewrite Hsn.
  - unfold extract. rewrite Hd.
    destruct (input v); [|discriminate].
    destruct (output v); [|discriminate].
    cbn. intros p [= <-]. split; reflexivity.
  - unfold extract, sn_error. rewrite Hd.
    destruct (input v); [|intros e [= <-]; intuition discriminate].
    destruct (output v); [|intros e [= <-]; intuition discriminate].
    cbn. discriminate.
  - exact Hsn.
  - intros s n. unfold Driver.main. rewrite Hsn. reflexivity.
  - unfold Driver.main, extract, explicit. cbn. rewrite Hd. reflexivity.
Qed.

Lemma default_uses_19_3_witness :
  let v := cmdline (Some 0) (Some (-2)) true false in
  extract v =
  inr {| sequence := "in.avi"; outputPath := "out"; sParam := 19;
         nParam := 3; visu := false |} /\
  (forall s n,
     extract (with_sn s n v) =
     inr {| sequence := "in.avi"; outputPath := "out"; sParam := 19;
            nParam := 3; visu := false |}) /\
  (forall e, extract v = inl e -> ~ sn_error e) /\
  (forall s n, Driver.main (uniform 1 1 [10; 20; 30]) (with_sn s n v) =
               Driver.main (uniform 1 1 [10; 20; 30]) v) /\
  Driver.main (uniform 1 1 [10; 20; 30]) v =
  Driver.main (uniform 1 1 [10; 20; 30]) (explicit 19 3 v).
Proof.
  intros v.
  destruct (default_uses_19_3 (uniform 1 1 [10; 20; 30]) v eq_refl)
    as (H1 & _ & H3 & _ & H5 & H6).
  destruct (H1 "in.avi"%string "out"%string eq_refl eq_refl) as (Hx & Hy).
  split; [exact Hx|]. split; [exact Hy|]. split; [exact H3|].
  split; [exact H5|exact H6].
Defined.

End ArgsFacts.

(** ** Sorting *)

Module SortFacts.

Lemma insert_sorted_perm (a : Z) (l : list Z) :
  Permutation (insert_sorted a l) (a :: l).
Proof.
  induction l as [|b t IH]; cbn.
  - reflexivity.
  - destruct (a <=? b); [reflexivity|].
    rewrite IH. apply perm_swap.
Qed.

Lemma sortZ_perm (l : list Z) : Permutation (sortZ l) l.
Proof.
  induction l as [|a t IH]; cbn.
  - reflexivity.
  - rewrite insert_sorted_perm. now apply perm_skip.
Qed.

Lemma sortZ_length (l : list Z) : length (sortZ l) = length l.
Proof. apply Permutation_length, sortZ_perm. Qed.

Lemma insert_sorted_sorted (a : Z) (l : list Z) :
  StronglySorted Z.le l -> StronglySorted Z.le (insert_sorted a l).
Proof.
  induction 1 as [|b t Hs IH Hb]; cbn.
  - repeat constructor.
  - destruct (a <=? b) eqn:Hab.
    + apply Z.leb_le in Hab. constructor.
      * now constructor.
      * constructor; [assumption|].
        eapply Forall_impl; [|exact Hb]. intros c Hc. cbn in Hc. lia.
    + apply Z.leb_gt in Hab. constructor; [assumption|].
      eapply Permutation_Forall.
      * symmetry. apply insert_sorted_perm.
      * constructor; [lia|assumption].
Qed.

Lemma sortZ_sorted (l : list Z) : StronglySorted Z.le (sortZ l).
Proof.
  induction l as [|a t IH]; cbn.
  - constructor.
  - now apply insert_sorted_sorted.
Qed.

(** A sorted list is determined by its elements. *)
Lemma sorted_perm_eq (l1 l2 : list Z) :
  StronglySorted Z.le l1 -> StronglySorted Z.le l2 ->
  Permutation l1 l2 -> l1 = l2.
Proof.
  intros H1. revert l2.
  induction H1 as [|a t Hs IH Ha]; intros l2 H2 Hp.
  - apply Permutation_nil in Hp. now subst.
  - destruct H2 as [|b u Hu Hb].
    + symmetry in Hp. apply Permutation_nil in Hp. discriminate.
    + assert (Hab : a = b).
      { assert (In a (b :: u)) as Hin1
          by (eapply Permutation_in; [exact Hp|now left]).
        assert (In b (a :: t)) as Hin2
          by (eapply Permutation_in; [symmetry; exact Hp|now left]).
        rewrite Forall_forall in Ha, Hb.
        destruct Hin1 as [->|Hin1]; [reflexivity|].
        destruct Hin2 as [->|Hin2]; [reflexivity|].
        specialize (Ha _ Hin2). specialize (Hb _ Hin1). lia. }
      subst b. f_equal. apply IH; [assumption|].
      eapply Permutation_cons_inv. exact Hp.
Qed.

Lemma sorted_app (l1 l2 : list Z) :
  StronglySorted Z.le l1 -> StronglySorted Z.le l2 ->
  (forall a b, In a l1 -> In b l2 -> a <= b) ->
  StronglySorted Z.le (l1 ++ l2).
Proof.
  induction 1 as [|a t Hs IH Ha]; intros H2 Hle; cbn.
  - assumption.
  - constructor.
    + apply IH; [assumption|]. intros; apply Hle; [now right|assumption].
    + apply Forall_app. split; [assumption|].
      apply Forall_forall. intros b Hb. apply Hle; [now left|assumption].
Qed.

(** The sort of a list split in a low and a high part. *)
Lemma sortZ_split (l lo hi : list Z) :
  Permutation l (lo ++ hi) ->
  (forall a b, In a lo -> In b hi -> a <= b) ->
  sortZ l = sortZ lo ++ sortZ hi.
Proof.
  intros Hp Hle. apply sorted_perm_eq.
  - apply sortZ_sorted.
  - apply sorted_app; try apply sortZ_sorted.
    intros a b Ha Hb. apply Hle.
    + eapply Permutation_in; [apply sortZ_perm|exact Ha].
    + eapply Permutation_in; [apply sortZ_perm|exact Hb].
  - rewrite sortZ_perm, Hp. apply Permutation_app; symmetry; apply sortZ_perm.
Qed.

(** The low part of such a split, when it has [min k (length l)] elements,
    is the first [k] elements of the sorted list. *)
Lemma lowest_firstn (k : nat) (l lo hi : list Z) :
  Permutation l (lo ++ hi) ->
  (forall a b, In a lo -> In b hi -> a <= b) ->
  length lo = Nat.min k (length l) ->
  Permutation lo (firstn k (sortZ l)).
Proof.
  intros Hp Hle Hlen.
  rewrite (sortZ_split l lo hi Hp Hle).
  pose proof (Permutation_length Hp) as Hl. rewrite length_app in Hl.
  destruct (Nat.le_gt_cases k (length l)) as [Hk|Hk].
  - rewrite Nat.min_l in Hlen by assumption.
    rewrite firstn_app, sortZ_length, Hlen, Nat.sub_diag. cbn.
    rewrite app_nil_r, firstn_all2 by (rewrite sortZ_length; lia).
    symmetry. apply sortZ_perm.
  - rewrite Nat.min_r in Hlen by lia.
    assert (hi = []) by (apply length_zero_iff_nil; lia). subst hi.
    cbn. rewrite app_nil_r, firstn_all2 by (rewrite sortZ_length; lia).
    symmetry. apply sortZ_perm.
Qed.

End SortFacts.

(** ** The patches history: insertion *)

Module InsertFacts.
Import History SortFacts.

Lemma fold_worst (t : list Candidate) (c0 : Candidate) :
  let w := fold_left (fun w a => if more_expendable a w then a else w) t c0 in
  In w (c0 :: t) /\ forall c, In c (c0 :: t) -> below c w.
Proof.
  revert c0. induction t as [|a t IH]; intros c0; cbn.
  - split; [now left|]. intros c [<-|[]]. unfold below. right. split; lia.
  - specialize (IH (if more_expendable a c0 then a else c0)).
    cbv zeta in IH. destruct IH as (Hin & Hmax).
    set (w := fold_left _ t _) in *.
    assert (Hstep : below c0 (if more_expendable a c0 then a else c0) /\
                    below a (if more_expendable a c0 then a else c0)).
    { unfold more_expendable, below.
      destruct (Z.ltb_spec (score c0) (score a)) as [H1|H1]; cbn [orb].
      - split; [left; lia|right; split; lia].
      - destruct (Z.eqb_spec (score a) (score c0)) as [H2|H2]; cbn [andb].
        + destruct (Nat.ltb_spec (order a) (order c0)) as [H3|H3];
            split; right; split; lia.
        + split; [right; split; lia|left; lia]. }
    split.
    + destruct Hin as [Hin|Hin]; [|now right; right].
      rewrite <- Hin. destruct (more_expendable a c0); [right; now left|now left].
    + pose proof (Hmax _ (or_introl eq_refl)) as Hf.
      intros c [<-|[<-|Hc]].
      * destruct Hstep as [Hs _]. unfold below in *. lia.
      * destruct Hstep as [_ Hs]. unfold below in *. lia.
      * apply Hmax. now right.
Qed.

Lemma worst_spec (cs : list Candidate) (w : Candidate) :
  worst cs = Some w -> is_worst w cs.
Proof.
  destruct cs as [|c0 t]; [discriminate|].
  cbn. intros [= <-].
  destruct (fold_worst t c0) as (Hin & Hmax).
  split; [exact Hin|].
  intros c Hc. specialize (Hmax c Hc). unfold below in Hmax. lia.
Qed.

Lemma worst_some (cs : list Candidate) :
  cs <> [] -> exists w, worst cs = Some w.
Proof. destruct cs; [congruence|]. intros _. eexists; reflexivity. Qed.

Lemma evict_other (w : Candidate) (cs : list Candidate) :
  (forall c, In c cs -> order c <> order w) -> evict w cs = cs.
Proof.
  induction cs as [|a t IH]; intros H; [reflexivity|].
  unfold evict. cbn [filter]. fold (evict w t).
  destruct (Nat.eqb_spec (order a) (order w)) as [Heq|Hne]; cbn [negb].
  - exfalso. apply (H a); [now left|assumption].
  - f_equal. apply IH. intros c Hc. apply H. now right.
Qed.

(** With distinct insertion orders, [evict] removes [w] and nothing else. *)
Lemma evict_perm (w : Candidate) (cs : list Candidate) :
  NoDup (map order cs) -> In w cs -> Permutation cs (w :: evict w cs).
Proof.
  induction cs as [|a t IH]; intros Hnd Hin; [destruct Hin|].
  cbn in Hnd. inversion Hnd as [|? ? Hnot Hnd']; subst.
  destruct Hin as [->|Hin].
  - unfold evict. cbn [filter]. rewrite Nat.eqb_refl. cbn [negb].
    fold (evict w t). rewrite evict_other; [reflexivity|].
    intros c Hc Heq. apply Hnot. rewrite <- Heq. now apply in_map.
  - unfold evict. cbn [filter]. fold (evict w t).
    destruct (Nat.eqb_spec (order a) (order w)) as [Heq|Hne]; cbn [negb].
    + exfalso. apply Hnot. rewrite Heq. now apply in_map.
    + rewrite (IH Hnd' Hin) at 1. apply perm_swap.
Qed.

Lemma evict_subset (w c : Candidate) (cs : list Candidate) :
  In c (evict w cs) -> In c cs.
Proof. unfold evict. rewrite filter_In. tauto. Qed.

Lemma keeps_lowest_NoDup (S : nat) (offered cs : list Candidate) :
  NoDup (map order offered) -> keeps_lowest S offered cs ->
  NoDup (map order cs).
Proof.
  intros Hnd (_ & rest & Hp & _).
  apply (Permutation_map order) in Hp.
  rewrite map_app in Hp.
  eapply NoDup_app_remove_r. eapply Permutation_NoDup; eassumption.
Qed.

(** One insertion keeps the lowest candidates offered. *)
Lemma insert_region_keeps_lowest (S : nat) (offered cs : list Candidate)
      (c : Candidate) :
  NoDup (map order offered) ->
  keeps_lowest S offered cs ->
  keeps_lowest S (offered ++ [c]) (insert_region S cs c).
Proof.
  intros Hnd Hk.
  pose proof (keeps_lowest_NoDup _ _ _ Hnd Hk) as Hndc.
  destruct Hk as (Hlen & rest & Hp & Hle).
  pose proof (Permutation_length Hp) as Hl. rewrite length_app in Hl.
  unfold insert_region, keeps_lowest.
  rewrite length_app. cbn [length].
  destruct (Nat.ltb_spec (length cs) S) as [Hlt|Hge].
  - assert (rest = []) by (apply length_zero_iff_nil; lia). subst rest.
    rewrite length_app. cbn [length]. split; [lia|].
    exists []. split; [|intros a b _ []].
    rewrite !app_nil_r in *. now apply Permutation_app_tail.
  - destruct (worst cs) as [w|] eqn:Hw.
    + destruct (worst_spec _ _ Hw) as (Hin & Hmax).
      pose proof (evict_perm w cs Hndc Hin) as Hev.
      pose proof (Permutation_length Hev) as Hevl. cbn in Hevl.
      destruct (Z.ltb_spec (score c) (score w)) as [Hsc|Hsc].
      * rewrite length_app. cbn [length]. split; [lia|].
        exists (w :: rest). split.
        -- transitivity (((w :: evict w cs) ++ rest) ++ [c]).
           { apply Permutation_app_tail. rewrite Hp.
             apply Permutation_app_tail. exact Hev. }
           cbn. apply (Permutation_cons_app (evict w cs ++ [c]) rest w).
           rewrite <- !app_assoc. apply Permutation_app_head.
           apply Permutation_app_comm.
        -- intros a b Ha Hb. apply in_app_or in Ha.
           assert (Hwb : forall b', In b' rest -> score w <= score b')
             by (intros b' Hb'; now apply Hle).
           destruct Ha as [Ha|[<-|[]]].
           ++ apply evict_subset in Ha.
              destruct Hb as [<-|Hb]; [apply Hmax, Ha|now apply Hle].
           ++ destruct Hb as [<-|Hb]; [lia|]. specialize (Hwb _ Hb). lia.
      * split; [lia|].
        exists (rest ++ [c]). split.
        -- rewrite app_assoc. now apply Permutation_app_tail.
        -- intros a b Ha Hb. apply in_app_or in Hb.
           destruct Hb as [Hb|[<-|[]]]; [now apply Hle|].
           destruct (Hmax a Ha) as [Hm _]. lia.
    + destruct cs; [|discriminate]. cbn in *.
      split; [lia|]. exists (rest ++ [c]).
      split; [now apply Permutation_app_tail|intros a b []].
Qed.

Lemma region_run_keeps_lowest (S : nat) (offered : list Candidate) :
  NoDup (map order offered) ->
  keeps_lowest S offered (region_run S [] offered).
Proof.
  induction offered as [|c l IH] using rev_ind; intros Hnd.
  - split; [now rewrite Nat.min_0_r|].
    exists []. split; [reflexivity|intros a b []].
  - unfold region_run. rewrite fold_left_app. cbn [fold_left].
    assert (Hl : NoDup (map order l)).
    { rewrite map_app in Hnd. eapply NoDup_app_remove_r. exact Hnd. }
    apply insert_region_keeps_lowest; [exact Hl|]. apply IH, Hl.
Qed.

Section Offers.

Variable E : External.

Lemma offers_cons (r : Rect) (k : nat) (mf : Mat E * Mat E)
      (calls : list (Mat E * Mat E)) :
  offers E r k (mf :: calls) =
  {| value := valueAt E (snd mf) r; score := scoreAt E (fst mf) r;
     order := k |} :: offers E r (S k) calls.
Proof. reflexivity. Qed.

Lemma offers_order (r : Rect) (calls : list (Mat E * Mat E)) (k : nat) :
  map order (offers E r k calls) = seq k (length calls).
Proof.
  revert k. induction calls as [|mf calls IH]; intros k; [reflexivity|].
  rewrite offers_cons. cbn. now rewrite IH.
Qed.

Lemma offers_score (r : Rect) (calls : list (Mat E * Mat E)) (k : nat) :
  map score (offers E r k calls) =
  map (fun mf => scoreAt E (fst mf) r) calls.
Proof.
  revert k. induction calls as [|mf calls IH]; intros k; [reflexivity|].
  rewrite offers_cons. cbn. now rewrite IH.
Qed.

(** The history after a sequence of calls: every region has run
    [insert_region] over the candidates it was offered. *)
Lemma inserts_regions (calls : list (Mat E * Mat E)) (h : PatchesHistory) :
  regions (inserts E h calls) =
  map (fun rc : Rect * list Candidate =>
         (fst rc,
          fold_left (insert_region (capacity h))
                    (offers E (fst rc) (clock h) calls) (snd rc)))
      (regions h) /\
  capacity (inserts E h calls) = capacity h /\
  clock (inserts E h calls) = (clock h + length calls)%nat.
Proof.
  revert h. induction calls as [|mf calls IH]; intros h.
  - cbn. repeat split; [|lia].
    rewrite <- (map_id (regions h)) at 1. apply map_ext.
    now intros [r cs].
  - unfold inserts in *. cbn [fold_left].
    destruct (IH (insert E h (fst mf) (snd mf))) as (Hr & Hc & Hk).
    rewrite Hr, Hc, Hk. cbn [insert capacity clock regions length].
    repeat split; [|lia].
    rewrite map_map. apply map_ext. intros [r cs]. reflexivity.
Qed.

End Offers.

(** The behaviour of one insertion into a full region. *)
Lemma insert_region_full (S : nat) (cs : list Candidate) :
  (1 <= S)%nat -> length cs = S -> NoDup (map order cs) ->
  exists w, worst cs = Some w /\ is_worst w cs /\
    forall c,
      (score c < score w ->
       insert_region S cs c = evict w cs ++ [c] /\
       Permutation (w :: insert_region S cs c) (c :: cs)) /\
      (score w <= score c -> insert_region S cs c = cs).
Proof.
  intros HS Hlen Hnd.
  destruct (worst_some cs) as (w & Hw).
  { intros ->. cbn in Hlen. lia. }
  exists w. split; [exact Hw|].
  pose proof (worst_spec _ _ Hw) as Hworst.
  split; [exact Hworst|].
  intros c. unfold insert_region. rewrite Hw.
  replace (length cs <? S)%nat with false
    by (symmetry; apply Nat.ltb_ge; lia).
  split; intros Hc.
  - replace (score c <? score w) with true by (symmetry; now apply Z.ltb_lt).
    split; [reflexivity|].
    rewrite (evict_perm w cs Hnd (proj1 Hworst)) at 2.
    rewrite perm_swap. apply perm_skip.
    symmetry. apply Permutation_cons_append.
  - replace (score c <? score w) with false by (symmetry; now apply Z.ltb_ge).
    reflexivity.
Qed.

(** The single-outlier scenario: S = 3 and the scores 5, 1, 1, 1 in this
    order leave the three candidates of score 1, in the order of their
    arrival. *)
Example single_outlier :
  let offered :=
    map (fun so : Z * nat =>
           {| value := {| c0 := 0; c1 := 0; c2 := 0 |};
              score := fst so; order := snd so |})
        [(5, 0%nat); (1, 1%nat); (1, 2%nat); (1, 3%nat)] in
  map (fun c => (score c, order c)) (region_run 3 [] offered) =
  [(1, 1%nat); (1, 2%nat); (1, 3%nat)].
Proof. reflexivity. Qed.

(** C1: in a history of capacity S >= 1, after any sequence of insertions,
    every region holds at most S candidates and the scores it holds are
    the S lowest (all, when fewer than S were seen) of the scores it was
    offered; a full region has a worst candidate (maximal score, the oldest
    among those of that score), a new candidate enters only on a strictly
    lower score, and then exactly the worst one leaves. *)
Theorem history_holds_S_lowest (E : External) (rois : list Rect) (S : Z)
        (calls : list (Mat E * Mat E)) :
  1 <= S ->
  let cap := Z.to_nat S in
  let h := inserts E (make rois S) calls in
  map fst (regions h) = rois /\
  Forall (fun rc : Rect * list Candidate =>
            let r := fst rc in
            let cs := snd rc in
            (length cs <= cap)%nat /\
            Permutation (map score cs)
              (firstn cap (sortZ (map (fun mf => scoreAt E (fst mf) r) calls))) /\
            (length cs = cap ->
             exists w, worst cs = Some w /\ is_worst w cs /\
               forall c,
                 (score c < score w ->
                  insert_region cap cs c = evict w cs ++ [c] /\
                  Permutation (w :: insert_region cap cs c) (c :: cs)) /\
                 (score w <= score c -> insert_region cap cs c = cs)))
         (regions h) /\
  forall m f,
    regions (insert E h m f) =
    map (fun rc : Rect * list Candidate =>
           (fst rc,
            insert_region cap (snd rc)
              {| value := valueAt E f (fst rc); score := scoreAt E m (fst rc);
                 order := length calls |}))
        (regions h).
Proof.
  intros HS cap h.
  destruct (inserts_regions E calls (make rois S)) as (Hr & Hc & Hk).
  fold h in Hr, Hc, Hk. cbn [make capacity clock regions] in Hr, Hc, Hk.
  fold cap in Hr, Hc. rewrite map_map in Hr. cbn [fst snd] in Hr.
  split; [|split].
  - rewrite Hr, map_map. cbn [fst]. apply map_id.
  - rewrite Hr. apply Forall_forall. intros rc Hin.
    apply in_map_iff in Hin. destruct Hin as (r & <- & _).
    cbn [fst snd].
    assert (Hnd : NoDup (map order (offers E r 0 calls)))
      by (rewrite offers_order; apply seq_NoDup).
    pose proof (region_run_keeps_lowest cap _ Hnd) as Hk'.
    unfold region_run in Hk'.
    pose proof (keeps_lowest_NoDup _ _ _ Hnd Hk') as Hndc.
    destruct Hk' as (Hlen & rest & Hp & Hle).
    split; [lia|]. split.
    + rewrite <- (offers_score E r calls 0%nat).
      apply (lowest_firstn cap _ _ (map score rest)).
      * rewrite <- map_app. now apply Permutation_map.
      * intros a b Ha Hb. apply in_map_iff in Ha, Hb.
        destruct Ha as (ca & <- & Ha). destruct Hb as (cb & <- & Hb).
        now apply Hle.
      * rewrite !length_map. exact Hlen.
    + intros Hfull. apply insert_region_full; [lia|exact Hfull|exact Hndc].
  - intros m f. unfold insert. cbn [regions]. rewrite Hc, Hk. reflexivity.
Qed.

Lemma history_holds_S_lowest_witness :
  let E := uniform 1 2 [] in
  let calls := [(5, 50); (1, 10); (1, 20); (1, 30)] in
  let h := inserts E (make (pixel_rois 1 2) 3) calls in
  map fst (regions h) = pixel_rois 1 2 /\
  Forall (fun rc : Rect * list Candidate =>
            (length (snd rc) <= 3)%nat /\
            Permutation (map score (snd rc)) [1; 1; 1])
         (regions h).
Proof.
  intros E calls h.
  destruct (history_holds_S_lowest E (pixel_rois 1 2) 3 calls ltac:(lia))
    as (Hr & Hf & _).
  split; [exact Hr|].
  eapply Forall_impl; [|exact Hf].
  intros rc (Hlen & Hp & _). split; [exact Hlen|exact Hp].
Defined.

End InsertFacts.

(** ** The patches history: aggregation *)

Module MedianFacts.
Import History SortFacts.

Lemma sorted_nth_error_le (l : list Z) :
  StronglySorted Z.le l ->
  forall i j a b, (i <= j)%nat ->
    nth_error l i = Some a -> nth_error l j = Some b -> a <= b.
Proof.
  induction 1 as [|x t Hs IH Hx]; intros i j a b Hij Ha Hb.
  - destruct i; discriminate.
  - destruct i as [|i], j as [|j]; cbn in Ha, Hb.
    + injection Ha as <-. injection Hb as <-. lia.
    + injection Ha as <-. apply nth_error_In in Hb.
      rewrite Forall_forall in Hx. now apply Hx.
    + lia.
    + eapply IH; [|eassumption|eassumption]. lia.
Qed.

Lemma half_pred_even (k : nat) : ((2 * S k - 1) / 2 = k)%nat.
Proof.
  symmetry. apply (Nat.div_unique _ 2 k 1); lia.
Qed.

Lemma half_even (k : nat) : ((2 * k) / 2 = k)%nat.
Proof.
  symmetry. apply (Nat.div_unique _ 2 k 0); lia.
Qed.

Lemma half_pred_lt (n : nat) : (1 <= n -> (n - 1) / 2 < n)%nat.
Proof.
  intros Hn. apply Nat.Div0.div_lt_upper_bound. lia.
Qed.

(** [lower_median] returns the lower median of a non-empty list. *)
Lemma lower_median_spec (vals : list Z) :
  vals <> [] -> is_lower_median vals (lower_median vals).
Proof.
  intros Hne.
  assert (Hn : (1 <= length vals)%nat)
    by (destruct vals; [congruence|cbn; lia]).
  exists (sortZ vals).
  split; [apply sortZ_sorted|]. split; [apply sortZ_perm|].
  assert (Hm : nth_error (sortZ vals) ((length vals - 1) / 2) =
               Some (lower_median vals)).
  { unfold lower_median. apply nth_error_nth'.
    rewrite sortZ_length. now apply half_pred_lt. }
  split; [exact Hm|].
  intros He. apply Nat.even_spec in He. destruct He as (k & Hk).
  destruct k as [|k]; [lia|].
  rewrite Hk, half_pred_even, half_even in *.
  split; [reflexivity|].
  destruct (nth_error (sortZ vals) (S k)) as [m'|] eqn:Hm'.
  - exists m'. split; [reflexivity|].
    eapply (sorted_nth_error_le _ (sortZ_sorted vals) k (S k)); eauto.
  - apply nth_error_None in Hm'. rewrite sortZ_length in Hm'. lia.
Qed.

(** The lower median of two values is the smaller one. *)
Lemma lower_median_pair (a b : Z) : lower_median [a; b] = Z.min a b.
Proof.
  unfold lower_median. cbn.
  destruct (Z.leb_spec a b); cbn; lia.
Qed.

Lemma median_region_some (cs : list Candidate) :
  cs <> [] ->
  median_region cs =
  inr {| c0 := lower_median (map (fun c => c0 (value c)) cs);
         c1 := lower_median (map (fun c => c1 (value c)) cs);
         c2 := lower_median (map (fun c => c2 (value c)) cs) |}.
Proof. destruct cs; [congruence|reflexivity]. Qed.

Lemma median_regions_some (rs : list (Rect * list Candidate)) :
  Forall (fun rc => snd rc <> []) rs ->
  exists img, median_regions rs = inr img /\
    Forall2 (fun (rc : Rect * list Candidate) (rv : Rect * Vec3b) =>
               fst rv = fst rc /\ median_region (snd rc) = inr (snd rv))
            rs img.
Proof.
  induction 1 as [|[r cs] t Hne Hf (img & Himg & IH)].
  - exists []. split; [reflexivity|constructor].
  - cbn [snd] in Hne. cbn [median_regions].
    rewrite (median_region_some cs Hne), Himg. cbn.
    eexists. split; [reflexivity|].
    constructor; [|exact IH]. cbn. split; [reflexivity|].
    now rewrite (median_region_some cs Hne).
Qed.

(** C4: when every region holds a candidate, the aggregation yields for
    every region and for each of the three channels on its own the lower
    median of the channel's values over the held candidates: the element
    of rank (n - 1) / 2 of the sorted values, for an even n the lower of the
    two middle ones; of two values it is the smaller (10 for 10 and 20). *)
Theorem median_is_channelwise_lower_median (h : PatchesHistory) (size : Z) :
  Forall (fun rc => snd rc <> []) (regions h) ->
  exists img,
    median h size = inr img /\
    Forall2 (fun (rc : Rect * list Candidate) (rv : Rect * Vec3b) =>
               fst rv = fst rc /\
               Forall (fun ch : Vec3b -> Z =>
                         let vals := map (fun c => ch (value c)) (snd rc) in
                         is_lower_median vals (ch (snd rv)) /\
                         (forall a b, vals = [a; b] -> ch (snd rv) = Z.min a b))
                      channels)
            (regions h) img.
Proof.
  intros Hne. unfold median.
  destruct (median_regions_some _ Hne) as (img & Himg & Hf).
  exists img. split; [exact Himg|].
  clear Himg. induction Hf as [|[r cs] [r' v] rs img' (Hr & Hv) Hf IH].
  - constructor.
  - inversion Hne as [|? ? Hcs Hne']; subst. cbn [fst snd] in *.
    constructor; [|now apply IH].
    split; [exact Hr|].
    rewrite (median_region_some cs Hcs) in Hv. injection Hv as <-.
    assert (Hmap : forall ch : Vec3b -> Z,
               map (fun c => ch (value c)) cs <> []).
    { intros ch Hnil. apply map_eq_nil in Hnil. contradiction. }
    repeat constructor; cbn [c0 c1 c2 fst snd].
    all: try (apply lower_median_spec, Hmap).
    all: intros a b Hab; rewrite Hab; apply lower_median_pair.
Qed.

Lemma median_is_channelwise_lower_median_witness :
  let r := {| x := 0; y := 0; width := 1; height := 1 |} in
  let h := {| capacity := 2; clock := 2;
              regions := [(r, [gray 10 0; gray 20 1])] |} in
  median h 2 = inr [(r, {| c0 := 10; c1 := 10; c2 := 10 |})].
Proof.
  intros r h.
  destruct (median_is_channelwise_lower_median h 2) as (img & Himg & Hf).
  - repeat constructor; discriminate.
  - rewrite Himg. clear Himg.
    inversion Hf as [|? [r' v] ? ? (Hr & Hch) Ht]; subst.
    inversion Ht; subst. cbn [fst snd] in *. subst r'.
    unfold channels in Hch.
    inversion Hch as [|? ? (_ & H0) Hch1]; subst.
    inversion Hch1 as [|? ? (_ & H1) Hch2]; subst.
    inversion Hch2 as [|? ? (_ & H2) _]; subst.
    specialize (H0 10 20 eq_refl). specialize (H1 10 20 eq_refl).
    specialize (H2 10 20 eq_refl).
    destruct v as [v0 v1 v2]. cbn in H0, H1, H2. subst. reflexivity.
Defined.

End MedianFacts.

(** ** The processing loop *)

Module LoopFacts.
Import Driver.

Ltac trace_solve :=
  unfold inserted, processed; rewrite !flat_map_app; cbn;
  rewrite ?app_nil_r; reflexivity.

Section Loop.

Variable E : External.
Variable frames : list (Mat E).
Variable visualization : bool.
Variable sParam kernel : Z.

Local Abbreviation body := (body E frames visualization sParam kernel).
Local Abbreviation loop := (loop E frames visualization sParam kernel).

Lemma incr_some (i j : nat) :
  incr (length frames) i = Some j ->
  (i < length frames)%nat /\ j = S i.
Proof.
  unfold incr. destruct (Nat.ltb_spec i (length frames)); [|discriminate].
  intros [= <-]. split; [assumption|reflexivity].
Qed.

(** The body on the first frame: the frame goes through the frame
    difference, nothing is inserted, and the iterator has moved on. *)
Lemma body_first (st : State E) (frame : Mat E) :
  firstFrame st = true ->
  nth_error frames (it st) = Some frame ->
  exists st',
    body st = Normal st' /\
    it st' = S (it st) /\ firstFrame st' = false /\
    fdiff st' <> None /\
    history st' = history st /\
    inserted (trace st') = inserted (trace st) /\
    processed (trace st') = processed (trace st) ++ [frame].
Proof.
  intros Hf Hn. unfold Driver.body. rewrite Hn, Hf.
  assert (Hlt : (it st < length frames)%nat)
    by (apply nth_error_Some; congruence).
  unfold incr. apply Nat.ltb_lt in Hlt. rewrite Hlt.
  eexists. split; [reflexivity|]. cbn.
  destruct visualization;
    [destruct (negb (empty E _))|];
    repeat split; try discriminate; trace_solve.
Qed.

(** The body on a later frame keeps the iterator where it is; it ends
    normally or, with the visualization, by an exception of the
    preview. *)
Lemma body_later (st : State E) (frame : Mat E)
      (fd : FrameDifferenceC1L1 E) :
  firstFrame st = false -> fdiff st = Some fd ->
  nth_error frames (it st) = Some frame ->
  (exists st',
     body st = Normal st' /\
     it st' = it st /\ firstFrame st' = false /\ fdiff st' <> None /\
     inserted (trace st') = inserted (trace st) ++ [frame] /\
     processed (trace st') = processed (trace st) ++ [frame]) \/
  (visualization = true /\ exists e st', body st = Raise e st').
Proof.
  intros Hf Hfd Hn. unfold Driver.body. rewrite Hn, Hf, Hfd.
  set (fp := fdiff_process E fd frame (probabilityMap st)).
  destruct visualization.
  - destruct (History.median _ sParam) as [e|bg].
    + right. split; [reflexivity|]. eexists _, _. reflexivity.
    + left. eexists. split; [reflexivity|]. cbn [it firstFrame fdiff trace].
      destruct (negb (empty E (snd fp)));
        repeat split; try discriminate; trace_solve.
  - left. eexists. split; [reflexivity|]. cbn [it firstFrame fdiff trace].
    destruct (negb (empty E (snd fp)));
      repeat split; try discriminate; trace_solve.
Qed.

Lemma skipn_nth_error {A : Type} (l : list A) (i : nat) (a : A) :
  nth_error l i = Some a -> skipn i l = a :: skipn (S i) l.
Proof.
  revert i. induction l as [|b t IH]; intros [|i] H; try discriminate.
  - injection H as <-. reflexivity.
  - cbn in H. apply IH in H. exact H.
Qed.

(** After the first frame: the loop stays within the frames, hands every
    remaining frame to the frame difference and to the history, and ends
    normally unless the preview throws. *)
Lemma loop_later (fuel : nat) (st : State E) :
  firstFrame st = false -> fdiff st <> None ->
  (it st <= length frames)%nat ->
  (length frames - it st < fuel)%nat ->
  match loop fuel st with
  | Normal st' =>
    it st' = length frames /\
    inserted (trace st') = inserted (trace st) ++ skipn (it st) frames /\
    processed (trace st') = processed (trace st) ++ skipn (it st) frames
  | Raise _ _ => visualization = true
  | Undef _ _ => False
  | Fuel => False
  end.
Proof.
  revert st. induction fuel as [|fuel IH]; intros st Hf Hfd Hle Hfuel; [lia|].
  cbn [Driver.loop].
  destruct (Nat.eqb_spec (it st) (length frames)) as [Heq|Hne].
  - rewrite Heq, skipn_all, !app_nil_r. auto.
  - destruct (nth_error frames (it st)) as [frame|] eqn:Hn.
    2:{ apply nth_error_None in Hn. lia. }
    destruct (fdiff st) as [fd|] eqn:Hfd'; [|congruence].
    destruct (body_later st frame fd Hf Hfd' Hn)
      as [(st' & Hb & Hit & Hf' & Hfd'' & Hi & Hp) | (Hv & e & st' & Hb)];
      rewrite Hb; [|exact Hv].
    unfold incr. rewrite Hit.
    replace (it st <? length frames)%nat with true
      by (symmetry; apply Nat.ltb_lt; lia).
    specialize (IH (set_it (S (it st)) st')).
    cbn [set_it it firstFrame fdiff trace] in IH.
    specialize (IH Hf' Hfd'' ltac:(lia) ltac:(lia)).
    destruct (loop fuel (set_it (S (it st)) st')); try exact IH.
    destruct IH as (I1 & I2 & I3).
    rewrite (skipn_nth_error _ _ _ Hn).
    rewrite I2, I3, Hi, Hp, <- !app_assoc. auto.
Qed.

(** The whole loop, from the first frame on.  Without frames it does
    nothing.  With two frames or more, the first frame goes through the
    frame difference only, the second frame is passed over, and the
    frames from the third on are processed and inserted. *)
Lemma loop_from_start (st : State E) :
  it st = 0%nat -> firstFrame st = true ->
  match frames with
  | [] => loop (S (length frames)) st = Normal st
  | [_] => exists st', loop (S (length frames)) st = Undef PastTheEnd st'
  | f0 :: _ :: rest =>
    match loop (S (length frames)) st with
    | Normal st' =>
      inserted (trace st') = inserted (trace st) ++ rest /\
      processed (trace st') = processed (trace st) ++ f0 :: rest
    | Raise _ _ => visualization = true
    | Undef _ _ => False
    | Fuel => False
    end
  end.
Proof.
  intros Hit Hf.
  destruct frames as [|f0 [|f1 rest]] eqn:Hfr.
  - cbn. rewrite Hit. reflexivity.
  - rewrite <- Hfr. cbn [Driver.loop].
    replace (it st =? length frames)%nat with false
      by (now rewrite Hit, Hfr).
    destruct (body_first st f0 Hf) as (st' & Hb & Hit' & _).
    { now rewrite Hit, Hfr. }
    rewrite Hb. exists st'. unfold incr.
    rewrite Hit', Hit, Hfr. reflexivity.
  - rewrite <- Hfr. cbn [Driver.loop].
    replace (it st =? length frames)%nat with false
      by (now rewrite Hit, Hfr).
    destruct (body_first st f0 Hf)
      as (st' & Hb & Hit' & Hf' & Hfd & _ & Hi & Hp).
    { now rewrite Hit, Hfr. }
    rewrite Hb. unfold incr. rewrite Hit', Hit.
    replace (1 <? length frames)%nat with true by (now rewrite Hfr).
    pose proof (loop_later (length frames) (set_it 2 st')) as HL.
    cbn [set_it it firstFrame fdiff trace] in HL.
    specialize (HL Hf' Hfd).
    assert (Hlen : length frames = S (S (length rest))) by (now rewrite Hfr).
    specialize (HL ltac:(lia) ltac:(lia)).
    destruct (loop (length frames) (set_it 2 st')); try exact HL.
    destruct HL as (_ & I2 & I3).
    rewrite I2, I3, Hi, Hp, Hfr. cbn [skipn].
    rewrite <- app_assoc. auto.
Qed.

End Loop.

End LoopFacts.

(** ** Whole runs *)

Module RunFacts.
Import Driver LoopFacts.

Lemma insert_region_nonempty (S : nat) (cs : list History.Candidate)
      (c : History.Candidate) :
  (1 <= S)%nat -> History.insert_region S cs c <> [].
Proof.
  intros HS. unfold History.insert_region.
  destruct (Nat.ltb_spec (length cs) S) as [Hlt|Hge].
  - intros H. apply app_eq_nil in H. destruct H as [_ H]. discriminate.
  - assert (Hne : cs <> []) by (intros ->; cbn in Hge; lia).
    destruct (History.worst cs) as [w|]; [|exact Hne].
    destruct (History.score c <? History.score w); [|exact Hne].
    intros H. apply app_eq_nil in H. destruct H as [_ H]. discriminate.
Qed.

(** After an insertion into a history of capacity 1 or more no region is
    empty, and the aggregation yields an image. *)
Lemma median_after_insert (E : External) (h : History.PatchesHistory)
      (m f : Mat E) (size : Z) :
  (1 <= History.capacity h)%nat ->
  exists img, History.median (History.insert E h m f) size = inr img.
Proof.
  intros Hc.
  destruct (MedianFacts.median_regions_some
              (History.regions (History.insert E h m f))) as (img & Himg & _).
  - cbn. apply Forall_forall. intros rc Hin.
    apply in_map_iff in Hin. destruct Hin as (rc' & <- & _). cbn.
    now apply insert_region_nonempty.
  - exists img. exact Himg.
Qed.

(** The aggregation over a history with an empty region throws
    [EmptyHistory]. *)
Lemma median_empty_region (h : History.PatchesHistory) (size : Z) (r : Rect) :
  In (r, []) (History.regions h) -> History.median h size = inl EmptyHistory.
Proof.
  unfold History.median.
  induction (History.regions h) as [|[r' cs] t IH]; intros Hin; [destruct Hin|].
  cbn [History.median_regions].
  destruct cs as [|c cs]; [reflexivity|].
  destruct Hin as [Hin|Hin]; [discriminate|].
  rewrite (IH Hin). reflexivity.
Qed.

Section Preview.

Variable E : External.
Variable frames : list (Mat E).
Variable sParam kernel : Z.

Lemma body_preview (a b : State E) :
  same_core a b -> (1 <= History.capacity (history a))%nat ->
  match body E frames true sParam kernel a,
        body E frames false sParam kernel b with
  | Normal a', Normal b' =>
    same_core a' b' /\
    History.capacity (history a') = History.capacity (history a)
  | Undef u _, Undef u' _ => u = u'
  | _, _ => False
  end.
Proof.
  intros (Hit & Hf & Hfd & Hpm & Hfpm & Hh) Hc.
  unfold body. rewrite <- Hit, <- Hf, <- Hfd, <- Hpm, <- Hfpm, <- Hh.
  destruct (nth_error frames (it a)) as [frame|]; [|reflexivity].
  destruct (firstFrame a).
  - destruct (incr (length frames) (it a)); [|reflexivity].
    repeat split.
  - destruct (fdiff a) as [fd|]; [|reflexivity].
    match goal with
    | |- context [History.median (History.insert E ?h ?m ?f) sParam] =>
      destruct (median_after_insert E h m f sParam Hc) as (img & ->)
    end.
    repeat split.
Qed.

(** The loop with and without the visualization: the same way of
    ending, on the same history. *)
Lemma loop_preview (fuel : nat) (a b : State E) :
  same_core a b -> (1 <= History.capacity (history a))%nat ->
  match loop E frames true sParam kernel fuel a,
        loop E frames false sParam kernel fuel b with
  | Normal a', Normal b' => history a' = history b'
  | Undef u _, Undef u' _ => u = u'
  | Fuel, Fuel => True
  | _, _ => False
  end.
Proof.
  revert a b. induction fuel as [|fuel IH]; intros a b Hs Hc; [exact I|].
  cbn [loop].
  pose proof Hs as (Hit & _ & _ & _ & _ & Hh).
  rewrite <- Hit.
  destruct (it a =? length frames)%nat; [exact Hh|].
  pose proof (body_preview a b Hs Hc) as Hb.
  destruct (body E frames true sParam kernel a) as [a'| | |],
           (body E frames false sParam kernel b) as [b'| | |];
    try contradiction; try exact Hb.
  destruct Hb as (Hs' & Hc').
  pose proof Hs' as (Hit' & Hf' & Hfd' & Hpm' & Hfpm' & Hh').
  rewrite <- Hit'.
  destruct (incr (length frames) (it a')) as [i|]; [|reflexivity].
  apply IH.
  - unfold same_core. cbn. repeat split; assumption.
  - cbn. lia.
Qed.

(** With enough fuel the loop ends. *)
Lemma loop_total (visualization : bool) (fuel : nat) (st : State E) :
  (length frames - it st < fuel)%nat ->
  loop E frames visualization sParam kernel fuel st <> Fuel.
Proof.
  revert st. induction fuel as [|fuel IH]; intros st Hfuel; [lia|].
  cbn [loop].
  destruct (it st =? length frames)%nat; [discriminate|].
  destruct (body E frames visualization sParam kernel st) as [st'| | |] eqn:Hb;
    try discriminate.
  - destruct (incr (length frames) (it st')) as [i|] eqn:Hi; [|discriminate].
    apply IH. cbn. apply incr_some in Hi. destruct Hi as (Hlt & ->).
    assert (it st <= it st')%nat; [|lia].
    unfold body in Hb.
    destruct (nth_error frames (it st)); [|discriminate].
    destruct (firstFrame st).
    + destruct (incr (length frames) (it st)) as [j|] eqn:Hj; [|discriminate].
      apply incr_some in Hj. injection Hb as <-. cbn. lia.
    + destruct (fdiff st); [|discriminate].
      destruct visualization.
      * destruct (History.median _ sParam); [discriminate|].
        injection Hb as <-. cbn. lia.
      * injection Hb as <-. cbn. lia.
  - unfold body in Hb.
    destruct (nth_error frames (it st)); [|discriminate].
    destruct (firstFrame st).
    + destruct (incr (length frames) (it st)); discriminate.
    + destruct (fdiff st); [|discriminate].
      destruct visualization; [|discriminate].
      destruct (History.median _ sParam); discriminate.
Qed.

End Preview.

Lemma extract_visualization (v : Args.VarsMap) :
  (exists e, forall b,
      Args.extract (Args.with_visualization b v) = inl e) \/
  (exists sequence out s n, 1 <= s /\ forall b,
      Args.extract (Args.with_visualization b v) =
      inr {| Args.sequence := sequence; Args.outputPath := out;
             Args.sParam := s; Args.nParam := n; Args.visu := b |}).
Proof.
  unfold Args.extract, Args.with_visualization. cbn.
  destruct (Args.input v) as [i|]; [|left; eexists; reflexivity].
  destruct (Args.output v) as [o|]; [|left; eexists; reflexivity].
  destruct (Args.default v).
  - right. exists i, o, 19, 3. split; [lia|reflexivity].
  - destruct (Args.s_parameter v) as [s|]; [|left; eexists; reflexivity].
    destruct (Z.ltb_spec s 1); [left; eexists; reflexivity|].
    destruct (Args.n_parameter v) as [n|]; [|left; eexists; reflexivity].
    destruct (Z.ltb_spec n 1); [left; eexists; reflexivity|].
    right. exists i, o, s, n. split; [lia|reflexivity].
Qed.

(** A run never stops for lack of fuel: the loop of [main] ends. *)
Lemma main_ends (E : External) (v : Args.VarsMap) :
  exit (main E v) <> OutOfFuel.
Proof.
  unfold main.
  destruct (Args.help v); [discriminate|].
  destruct (Args.extract v) as [e|p]; [discriminate|].
  destruct (negb (isOpened _)); [discriminate|].
  unfold processing.
  lazymatch goal with
  | |- context [loop E ?fr ?vi ?s ?k ?fu ?st] =>
    pose proof (loop_total E fr s k vi fu st) as Ht;
    destruct (loop E fr vi s k fu st)
  end.
  - destruct (History.median _ _); discriminate.
  - discriminate.
  - discriminate.
  - exfalso. apply Ht; [|reflexivity]. cbn. lia.
Qed.

(** C8: two runs on the same command line, the same sequence and the same
    collaborators, one with and one without the visualization, end the same
    way: the same file with the same background image, or the same
    failure. *)
Theorem visualization_does_not_change_result (E : External) (v : Args.VarsMap) :
  exit (main E (Args.with_visualization true v)) =
  exit (main E (Args.with_visualization false v)).
Proof.
  unfold main. cbn [Args.help Args.with_visualization].
  destruct (Args.help v); [reflexivity|].
  fold (Args.with_visualization true v). fold (Args.with_visualization false v).
  destruct (extract_visualization v) as [(e & He) | (sq & out & s & n & Hs & He)];
    rewrite !He; [reflexivity|].
  cbn [Args.sequence].
  destruct (negb (isOpened (decoder E sq))); [reflexivity|].
  unfold processing.
  cbn [Args.sParam Args.nParam Args.visu Args.outputPath].
  set (dec := decoder E sq).
  set (k := Kernel.kernelSize (frame_height dec) (frame_width dec) n).
  set (st0 := initial E (frame_height dec) (frame_width dec) s n).
  assert (Hl := loop_preview E (read_all dec) s k (S (length (read_all dec)))
                  st0 st0).
  assert (Hsame : same_core st0 st0) by (repeat split).
  assert (Hcap : (1 <= History.capacity (history st0))%nat) by (cbn; lia).
  specialize (Hl Hsame Hcap).
  destruct (loop E (read_all dec) true s k _ st0) as [a| | |],
           (loop E (read_all dec) false s k _ st0) as [b| | |];
    try contradiction.
  - rewrite Hl. destruct (History.median (history b) s); reflexivity.
  - cbn. now rewrite Hl.
  - reflexivity.
Qed.

(** The loop on a sequence of one frame. *)
Lemma loop_one_frame (E : External) (frame : Mat E)
      (visualization : bool) (sParam kernel : Z) (st : State E) :
  it st = 0%nat -> firstFrame st = true ->
  exists st',
    loop E [frame] visualization sParam kernel 2 st = Undef PastTheEnd st' /\
    it st' = 1%nat /\
    history st' = history st /\
    inserted (trace st') = inserted (trace st).
Proof.
  intros Hit Hf. cbn [loop]. rewrite Hit. cbn [length Nat.eqb].
  destruct (body_first E [frame] visualization sParam kernel st frame Hf)
    as (st' & Hb & Hit' & _ & _ & Hh & Hi & _).
  { now rewrite Hit. }
  rewrite Hb. exists st'. unfold incr. rewrite Hit', Hit. cbn.
  repeat split; assumption.
Qed.

(** C9, at its failing input: on a sequence of exactly one frame the
    processing loop, started as [main] starts it, increments the iterator
    twice, in the branch of the first frame and in the header of the loop;
    the second increment is on [end()] and moves the iterator past it. *)
Theorem one_frame_iterator_past_the_end (E : External) (frame : Mat E)
        (visualization : bool) (height width sParam nParam : Z) :
  exists st',
    loop E [frame] visualization sParam
         (Kernel.kernelSize height width nParam) (S (length [frame]))
         (initial E height width sParam nParam) = Undef PastTheEnd st' /\
    it st' = length [frame] /\
    incr (length [frame]) (it st') = None.
Proof.
  destruct (loop_one_frame E frame visualization sParam
              (Kernel.kernelSize height width nParam)
              (initial E height width sParam nParam) eq_refl eq_refl)
    as (st' & Hl & Hit' & _).
  exists st'. rewrite Hit'. repeat split. exact Hl.
Qed.

(** The iterator leaves the frames on a sequence of one frame only. *)
Lemma overrun_only_on_one_frame (E : External) (v : Args.VarsMap) (p : Args.Params)
      (u : Undefined) :
  Args.help v = false -> Args.extract v = inr p ->
  exit (main E v) = UndefinedBehaviour u ->
  length (read_all (decoder E (Args.sequence p))) = 1%nat.
Proof.
  intros Hh Hp. unfold main. rewrite Hh, Hp.
  destruct (negb (isOpened _)); [discriminate|].
  unfold processing.
  match goal with
  | |- context [loop E ?fr ?vi ?s ?k (S (length ?fr)) ?st] =>
    pose proof (loop_from_start E fr vi s k st eq_refl eq_refl) as Hl;
    destruct fr as [|f0 [|f1 rest]]
  end.
  - rewrite Hl. destruct (History.median _ _); discriminate.
  - reflexivity.
  - match type of Hl with
    | match ?x with _ => _ end => destruct x
    end; try contradiction; [|discriminate].
    destruct (History.median _ _); discriminate.
Qed.

Lemma processing_skips_second (E : External) (p : Args.Params)
      (dec : VideoCapture (Mat E)) (f0 f1 : Mat E) (rest : list (Mat E)) :
  read_all dec = f0 :: f1 :: rest -> Args.visu p = false ->
  processed (events (processing E p dec)) = f0 :: rest /\
  inserted (events (processing E p dec)) = rest.
Proof.
  intros Hr Hv. unfold processing. rewrite Hr, Hv.
  set (k := Kernel.kernelSize _ _ _). set (st0 := initial E _ _ _ _).
  pose proof (loop_from_start E (f0 :: f1 :: rest) false (Args.sParam p) k st0
                eq_refl eq_refl) as Hl.
  cbv iota in Hl.
  destruct (loop E (f0 :: f1 :: rest) false (Args.sParam p) k _ st0)
    as [st'| | |]; try contradiction; try discriminate.
  destruct Hl as (Hi & Hp). cbn in Hi, Hp.
  destruct (History.median (history st') (Args.sParam p)); cbn [events];
    unfold processed, inserted in *; rewrite !flat_map_app; cbn;
    rewrite ?app_nil_r; split; assumption.
Qed.

(** C2, at its failing input: on a sequence [f0, f1, f2, ...] the second
    frame [f1] is handed neither to the frame difference nor to the
    history; the frames processed are [f0, f2, ...] and the frames inserted
    are [f2, ...]. *)
Theorem second_frame_never_processed (E : External) (h w : Z)
        (f0 f1 : Mat E) (rest : list (Mat E)) (s n : option Z) :
  let out := main (with_frames E h w (f0 :: f1 :: rest)) (cmdline s n true false) in
  processed (E := with_frames E h w (f0 :: f1 :: rest)) (events out) = f0 :: rest /\
  inserted (E := with_frames E h w (f0 :: f1 :: rest)) (events out) = rest.
Proof.
  cbv zeta.
  apply (processing_skips_second (with_frames E h w (f0 :: f1 :: rest))
           {| Args.sequence := "in.avi"; Args.outputPath := "out";
              Args.sParam := 19; Args.nParam := 3; Args.visu := false |}
           {| isOpened := true; frame_height := h; frame_width := w;
              read_all := f0 :: f1 :: rest |} f0 f1 rest);
    reflexivity.
Qed.

(** No frame: the loop does nothing and the terminal aggregation throws
    [EmptyHistory], provided there is a region. *)
Lemma no_frame_EmptyHistory (E : External) (h w : Z) (s n : option Z)
      (visu : bool) :
  getROIs E h w <> [] ->
  exit (main (with_frames E h w []) (cmdline s n true visu)) =
  Uncaught EmptyHistory.
Proof.
  intros Hr. unfold main. cbn.
  destruct (getROIs E h w) as [|r t]; [congruence|]. reflexivity.
Qed.

Lemma processing_one_frame (E : External) (p : Args.Params)
      (dec : VideoCapture (Mat E)) (frame : Mat E) :
  read_all dec = [frame] ->
  exit (processing E p dec) = UndefinedBehaviour PastTheEnd /\
  inserted (events (processing E p dec)) = [].
Proof.
  intros Hr. unfold processing. rewrite Hr. cbn [length].
  set (k := Kernel.kernelSize _ _ _). set (st0 := initial E _ _ _ _).
  destruct (loop_one_frame E frame (Args.visu p) (Args.sParam p) k st0
              eq_refl eq_refl) as (st' & Hl & _ & _ & Hi).
  rewrite Hl. cbn [exit events]. split; [reflexivity|exact Hi].
Qed.

(** C5, at its failing input: a run on a sequence of exactly one frame
    does not reach the terminal aggregation; it ends in the iterator's
    undefined behaviour instead of [EmptyHistory]. *)
Theorem one_frame_run_not_EmptyHistory (E : External) (h w : Z) (frame : Mat E)
        (s n : option Z) (visu : bool) :
  let out := main (with_frames E h w [frame]) (cmdline s n true visu) in
  exit out = UndefinedBehaviour PastTheEnd /\
  exit out <> Uncaught EmptyHistory /\
  inserted (E := with_frames E h w [frame]) (events out) = [].
Proof.
  cbv zeta.
  destruct (processing_one_frame (with_frames E h w [frame])
              {| Args.sequence := "in.avi"; Args.outputPath := "out";
                 Args.sParam := 19; Args.nParam := 3; Args.visu := visu |}
              {| isOpened := true; frame_height := h; frame_width := w;
                 read_all := [frame] |} frame eq_refl) as (Hx & Hi).
  change (main (with_frames E h w [frame]) (cmdline s n true visu))
    with (processing (with_frames E h w [frame])
            {| Args.sequence := "in.avi"; Args.outputPath := "out";
               Args.sParam := 19; Args.nParam := 3; Args.visu := visu |}
            {| isOpened := true; frame_height := h; frame_width := w;
               read_all := [frame] |}).
  rewrite Hx. split; [reflexivity|]. split; [discriminate|exact Hi].
Qed.

End RunFacts.

(** * Further properties of [main] *)

(** ** The parameters accepted *)

Module ArgsMore.
Import Args.

(** X1: the command lines [main] accepts are exactly those with both paths
    and either the default option or both S and N given and at least 1. *)
Theorem extract_accepts_iff (v : VarsMap) :
  (exists p, extract v = inr p) <->
  (input v <> None /\ output v <> None /\
   (default v = true \/
    exists s n, s_parameter v = Some s /\ n_parameter v = Some n /\
                1 <= s /\ 1 <= n)).
Proof.
  unfold extract. split.
  - intros (p & Hp).
    destruct (input v) as [i|]; [|discriminate].
    destruct (output v) as [o|]; [|discriminate].
    split; [discriminate|]. split; [discriminate|].
    destruct (default v); [now left|right].
    destruct (s_parameter v) as [s|]; [|discriminate].
    destruct (Z.ltb_spec s 1); [discriminate|].
    destruct (n_parameter v) as [n|]; [|discriminate].
    destruct (Z.ltb_spec n 1); [discriminate|].
    exists s, n. repeat split; lia.
  - intros (Hi & Ho & Hsn).
    destruct (input v) as [i|]; [|congruence].
    destruct (output v) as [o|]; [|congruence].
    destruct Hsn as [-> | (s & n & -> & -> & Hs & Hn)].
    + eexists; reflexivity.
    + destruct (default v); [eexists; reflexivity|].
      apply Z.ltb_ge in Hs, Hn. rewrite Hs, Hn. eexists; reflexivity.
Qed.

(** X2: what is extracted is what was given: the two paths and the
    visualization flag as they are, and, without the default option, the S
    and N of the command line, both at least 1 (so that the history has room
    and the division by N is defined). *)
Theorem extract_keeps_values (v : VarsMap) (p : Params) :
  extract v = inr p ->
  input v = Some (sequence p) /\ output v = Some (outputPath p) /\
  visu p = visualization v /\
  1 <= sParam p /\ 1 <= nParam p /\
  (default v = false ->
   s_parameter v = Some (sParam p) /\ n_parameter v = Some (nParam p)).
Proof.
  unfold extract.
  destruct (input v) as [i|]; [|discriminate].
  destruct (output v) as [o|]; [|discriminate].
  destruct (default v).
  - cbn. intros [= <-]. cbn. repeat split; try lia; discriminate.
  - destruct (s_parameter v) as [s|]; [|discriminate].
    destruct (Z.ltb_spec s 1); [discriminate|].
    destruct (n_parameter v) as [n|]; [|discriminate].
    destruct (Z.ltb_spec n 1); [discriminate|].
    cbn. intros [= <-]. cbn. repeat split; lia.
Qed.

Lemma extract_keeps_values_witness :
  let v := cmdline (Some 5) (Some 2) false true in
  let p := {| sequence := "in.avi"; outputPath := "out";
              sParam := 5; nParam := 2; visu := true |} in
  input v = Some (sequence p) /\ output v = Some (outputPath p) /\
  visu p = visualization v /\
  1 <= sParam p /\ 1 <= nParam p /\
  (default v = false ->
   s_parameter v = Some (sParam p) /\ n_parameter v = Some (nParam p)).
Proof.
  apply extract_keeps_values. reflexivity.
Defined.

End ArgsMore.

(** ** The size of the kernel, continued *)

Module KernelMore.
Import Kernel.

Lemma kernel_quotient (H W N : Z) :
  1 <= H -> 1 <= W -> 1 <= N ->
  let q := Z.min H W / N in
  0 <= q /\ kernelSize H W N = (if Z.odd q then q else q + 1).
Proof.
  intros HH HW HN q. unfold kernelSize.
  rewrite Z.quot_div_nonneg by lia. fold q.
  split; [apply Z.div_pos; lia|apply KernelFacts.lor_1].
Qed.

(** X3: the window exceeds the smaller side of the frame by at most one
    pixel; it fits in the frame as soon as N is at least 2, and with N = 1
    and an even smaller side it is one pixel larger than that side. *)
Theorem kernelSize_against_frame (H W N : Z) :
  1 <= H -> 1 <= W -> 1 <= N ->
  kernelSize H W N <= Z.min H W + 1 /\
  (2 <= N -> kernelSize H W N <= Z.min H W) /\
  (N = 1 -> Z.even (Z.min H W) = true -> kernelSize H W N = Z.min H W + 1).
Proof.
  intros HH HW HN.
  destruct (kernel_quotient H W N HH HW HN) as (Hq & ->).
  set (m := Z.min H W) in *. assert (Hm : 1 <= m) by (unfold m; lia).
  assert (Hle : m / N <= m) by (apply Z.div_le_upper_bound; nia).
  split; [|split].
  - destruct (Z.odd (m / N)); lia.
  - intros HN2.
    assert (Hh : m / N <= m / 2).
    { apply Z.div_le_lower_bound; [lia|].
      pose proof (Z.mul_div_le m N ltac:(lia)). nia. }
    assert (Hm2 : 2 * (m / 2) <= m) by (apply Z.mul_div_le; lia).
    destruct (Z.odd (m / N)) eqn:Ho; [lia|].
    destruct (Z.eq_dec m 1) as [->|Hne].
    + rewrite Z.div_small by lia. lia.
    + lia.
  - intros -> He. rewrite Z.div_1_r.
    rewrite <- Z.negb_even, He. reflexivity.
Qed.

Lemma kernelSize_against_frame_witness :
  kernelSize 480 640 1 <= Z.min 480 640 + 1 /\
  (2 <= 1 -> kernelSize 480 640 1 <= Z.min 480 640) /\
  (1 = 1 -> Z.even (Z.min 480 640) = true ->
   kernelSize 480 640 1 = Z.min 480 640 + 1).
Proof.
  apply (kernelSize_against_frame 480 640 1); lia.
Defined.

(** X4: the window is a single pixel exactly when the smaller side of the
    frame is less than twice N. *)
Theorem kernelSize_one_iff (H W N : Z) :
  1 <= H -> 1 <= W -> 1 <= N ->
  (kernelSize H W N = 1 <-> Z.min H W < 2 * N).
Proof.
  intros HH HW HN.
  destruct (kernel_quotient H W N HH HW HN) as (Hq & ->).
  set (m := Z.min H W) in *.
  assert (Hlt : m / N < 2 <-> m < 2 * N).
  { split; intros Hx.
    - destruct (Z.lt_ge_cases m (2 * N)) as [|Hge]; [assumption|].
      assert (2 <= m / N) by (apply Z.div_le_lower_bound; lia). lia.
    - apply Z.div_lt_upper_bound; lia. }
  destruct (Z.odd (m / N)) eqn:Ho.
  - split; intros Hx; [apply Hlt; lia|].
    apply Hlt in Hx.
    assert (m / N <> 0) by (intros H0; rewrite H0 in Ho; discriminate).
    lia.
  - split; intros Hx; [apply Hlt; lia|].
    apply Hlt in Hx.
    assert (m / N <> 1) by (intros H1; rewrite H1 in Ho; discriminate).
    lia.
Qed.

Lemma kernelSize_one_iff_witness :
  kernelSize 5 9 3 = 1 <-> Z.min 5 9 < 2 * 3.
Proof.
  apply (kernelSize_one_iff 5 9 3); lia.
Defined.

(** X5: a larger N never gives a larger window. *)
Theorem kernelSize_antitone (H W N N' : Z) :
  1 <= H -> 1 <= W -> 1 <= N -> N <= N' ->
  kernelSize H W N' <= kernelSize H W N.
Proof.
  intros HH HW HN HNN.
  destruct (kernel_quotient H W N HH HW HN) as (Hq & ->).
  destruct (kernel_quotient H W N' HH HW ltac:(lia)) as (Hq' & ->).
  set (m := Z.min H W) in *.
  assert (Hle : m / N' <= m / N).
  { apply Z.div_le_compat_l; unfold m; lia. }
  destruct (Z.odd (m / N')) eqn:Ho', (Z.odd (m / N)) eqn:Ho; try lia.
  - destruct (Z.eq_dec (m / N') (m / N)) as [Heq|Hne]; [|lia].
    rewrite Heq in Ho'. congruence.
Qed.

Lemma kernelSize_antitone_witness :
  kernelSize 480 640 19 <= kernelSize 480 640 3.
Proof.
  apply (kernelSize_antitone 480 640 3 19); lia.
Defined.

(** X6: on [int32_t] dimensions the expression of line 201 never leaves
    [int32_t]. *)
Theorem kernelSize_no_overflow (H W N : Z) :
  1 <= H -> 1 <= W -> 1 <= N -> int32 H -> int32 W ->
  int32 (Z.min H W) /\ int32 (Z.quot (Z.min H W) N) /\
  int32 (kernelSize H W N).
Proof.
  intros HH HW HN IH IW.
  pose proof (KernelFacts.quotient_nonneg H W N HH HW HN) as Hq.
  pose proof (KernelFacts.kernelSize_int32 H W N HH HW HN IH IW) as Hk.
  unfold int32 in *. repeat split; try lia; apply Hk.
Qed.

Lemma kernelSize_no_overflow_witness :
  int32 (Z.min 2147483647 2147483647) /\
  int32 (Z.quot (Z.min 2147483647 2147483647) 1) /\
  int32 (kernelSize 2147483647 2147483647 1).
Proof.
  apply (kernelSize_no_overflow 2147483647 2147483647 1);
    unfold int32; lia.
Defined.

End KernelMore.

(** ** The loop as a pipeline *)

Module PipelineFacts.
Import Driver Pipeline LoopFacts.

Section Loop.

Variable E : External.
Variable frames : list (Mat E).
Variable visualization : bool.
Variable sParam kernel : Z.

Lemma body_later_stage (st st' : State E) (s : Stage E) (frame : Mat E) :
  firstFrame st = false -> stage_of st = Some s ->
  nth_error frames (it st) = Some frame ->
  body E frames visualization sParam kernel st = Normal st' ->
  stage_of st' = Some (later E kernel s frame) /\
  numFrame st' = numFrame st + 1 /\
  it st' = it st /\ firstFrame st' = false.
Proof.
  intros Hf Hs Hn. unfold body, stage_of in *. rewrite Hn, Hf.
  destruct (fdiff st) as [fd|]; [|discriminate].
  injection Hs as <-. unfold later. cbn [s_fdiff s_probabilityMap
    s_filteredProbabilityMap s_history].
  destruct visualization.
  - destruct (History.median _ sParam); [discriminate|].
    intros [= <-]. cbn. repeat split.
  - intros [= <-]. cbn. repeat split.
Qed.

Lemma loop_later_stage (fuel : nat) (st : State E) (s : Stage E) :
  firstFrame st = false -> stage_of st = Some s ->
  (it st <= length frames)%nat ->
  (length frames - it st < fuel)%nat ->
  match loop E frames visualization sParam kernel fuel st with
  | Normal st' =>
    stage_of st' = Some (fold_left (later E kernel) (skipn (it st) frames) s) /\
    numFrame st' = numFrame st + Z.of_nat (length frames - it st)
  | Raise _ _ => visualization = true
  | Undef _ _ => False
  | Fuel => False
  end.
Proof.
  revert st s. induction fuel as [|fuel IH]; intros st s Hf Hs Hle Hfuel; [lia|].
  cbn [loop].
  destruct (Nat.eqb_spec (it st) (length frames)) as [Heq|Hne].
  - rewrite Heq, skipn_all, Nat.sub_diag. cbn. split; [exact Hs|lia].
  - destruct (nth_error frames (it st)) as [frame|] eqn:Hn.
    2:{ apply nth_error_None in Hn. lia. }
    assert (Hfd : exists fd, fdiff st = Some fd).
    { unfold stage_of in Hs. destruct (fdiff st) as [fd|]; [|discriminate].
      now exists fd. }
    destruct Hfd as (fd & Hfd).
    destruct (body_later E frames visualization sParam kernel st frame fd
                Hf Hfd Hn)
      as [(st' & Hb & _) | (Hv & e & st' & Hb)]; rewrite Hb; [|exact Hv].
    destruct (body_later_stage st st' s frame Hf Hs Hn Hb)
      as (Hs' & Hnum & Hit & Hf').
    unfold incr. rewrite Hit.
    replace (it st <? length frames)%nat with true
      by (symmetry; apply Nat.ltb_lt; lia).
    specialize (IH (set_it (S (it st)) st') (later E kernel s frame)).
    unfold stage_of in IH, Hs'.
    cbn [set_it it firstFrame fdiff probabilityMap filteredProbabilityMap
         history numFrame] in IH.
    specialize (IH Hf' Hs' ltac:(lia) ltac:(lia)).
    destruct (loop E frames visualization sParam kernel fuel
                (set_it (S (it st)) st')); try exact IH.
    destruct IH as (I1 & I2).
    rewrite (skipn_nth_error _ _ _ Hn). cbn [fold_left].
    split; [exact I1|]. rewrite I2, Hnum. lia.
Qed.

End Loop.

(** The loop on a sequence of two frames or more, as a fold. *)
Lemma loop_stage (E : External) (visualization : bool)
        (height width sParam nParam : Z) (f0 f1 : Mat E) (rest : list (Mat E)) :
  let kernel := Kernel.kernelSize height width nParam in
  let frames := f0 :: f1 :: rest in
  let start :=
    first E f0 (probabilityMap0 E height width)
          (filteredProbabilityMap0 E height width kernel)
          (History.make (getROIs E height width) sParam) in
  match loop E frames visualization sParam kernel (S (length frames))
             (initial E height width sParam nParam) with
  | Normal st' =>
    stage_of st' = Some (fold_left (later E kernel) rest start) /\
    numFrame st' = Z.of_nat (length rest) /\
    it st' = length frames
  | Raise _ _ => visualization = true
  | Undef _ _ => False
  | Fuel => False
  end.
Proof.
  intros kernel frames start.
  set (st0 := initial E height width sParam nParam).
  cbn [loop]. change (it st0 =? length frames)%nat with false. cbv iota.
  destruct (body_first E frames visualization sParam kernel st0 f0
              eq_refl eq_refl) as (st1 & Hb & Hit1 & Hf1 & _).
  assert (Hst1 : stage_of st1 = Some start /\ numFrame st1 = 0).
  { unfold body in Hb. cbn in Hb. injection Hb as <-.
    unfold stage_of. cbn. split; reflexivity. }
  destruct Hst1 as (Hs1 & Hn1).
  rewrite Hb. unfold incr. rewrite Hit1. cbn [it st0 initial].
  change (1 <? length frames)%nat with true. cbv iota.
  pose proof (loop_later_stage E frames visualization sParam kernel
                (length frames) (set_it 2 st1) start) as HL.
  unfold stage_of in HL, Hs1.
  cbn [set_it it firstFrame fdiff probabilityMap filteredProbabilityMap
       history numFrame] in HL.
  specialize (HL Hf1 Hs1).
  assert (Hlen : length frames = S (S (length rest))) by reflexivity.
  specialize (HL ltac:(lia) ltac:(lia)).
  pose proof (loop_later E frames visualization sParam kernel
                (length frames) (set_it 2 st1)) as HI.
  cbn [set_it it firstFrame fdiff trace] in HI.
  assert (Hfd1 : fdiff st1 <> None).
  { destruct (fdiff st1); [discriminate|discriminate]. }
  specialize (HI Hf1 Hfd1 ltac:(lia) ltac:(lia)).
  destruct (loop E frames visualization sParam kernel (length frames)
              (set_it 2 st1)) as [st'| | |]; try exact HL.
  destruct HL as (L1 & L2). destruct HI as (I1 & _).
  split; [exact L1|]. split; [|exact I1].
  rewrite L2, Hn1, Hlen. f_equal. lia.
Qed.


End PipelineFacts.

(** ** The name of the output file *)

Module OutputFileFacts.
Import Pipeline.

Local Open Scope string_scope.

Lemma append_assoc (a b c : string) : (a ++ b) ++ c = a ++ (b ++ c).
Proof. induction a as [|x a IH]; cbn; [reflexivity|now rewrite IH]. Qed.

Lemma append_cancel_l (a b c : string) : a ++ b = a ++ c -> b = c.
Proof.
  induction a as [|x a IH]; cbn; [trivial|].
  intros [= H]. now apply IH.
Qed.

(** Two strings cut at the first occurrence of a character. *)
Lemma cut_at (c : Ascii.ascii) (s1 s2 t1 t2 : string) :
  ~ In c (list_ascii_of_string s1) -> ~ In c (list_ascii_of_string s2) ->
  s1 ++ String c t1 = s2 ++ String c t2 -> s1 = s2 /\ t1 = t2.
Proof.
  revert s2. induction s1 as [|x s1 IH]; intros [|y s2] H1 H2; cbn in *.
  - intros [= ->]. split; reflexivity.
  - intros [= <- _]. exfalso. apply H2. now left.
  - intros [= -> _]. exfalso. apply H1. now left.
  - intros [= -> H]. destruct (IH s2) as (-> & ->); try assumption.
    + intros Hin. apply H1. now right.
    + intros Hin. apply H2. now right.
    + split; reflexivity.
Qed.

Lemma uint_chars (d : Decimal.uint) :
  Forall digit_or_minus (list_ascii_of_string (NilEmpty.string_of_uint d)).
Proof.
  induction d; cbn; constructor; try assumption; split; discriminate.
Qed.

Lemma string_of_Z_chars (z : Z) :
  Forall digit_or_minus (list_ascii_of_string (Driver.string_of_Z z)).
Proof.
  unfold Driver.string_of_Z, NilZero.string_of_int, NilZero.string_of_uint.
  destruct (Z.to_int z) as [d|d].
  - destruct d; try apply uint_chars. repeat constructor; discriminate.
  - cbn. constructor; [split; discriminate|].
    destruct d; try apply uint_chars. repeat constructor; discriminate.
Qed.

Lemma string_of_Z_without (z : Z) (c : Ascii.ascii) :
  c = "_"%char \/ c = "."%char ->
  ~ In c (list_ascii_of_string (Driver.string_of_Z z)).
Proof.
  intros Hc Hin.
  pose proof (string_of_Z_chars z) as Hf. rewrite Forall_forall in Hf.
  destruct (Hf c Hin) as (H1 & H2). destruct Hc; contradiction.
Qed.

Lemma to_int_proper (z : Z) :
  Z.to_int z <> Decimal.Pos Decimal.Nil /\ Z.to_int z <> Decimal.Neg Decimal.Nil.
Proof.
  destruct z; cbn; split; try discriminate;
    intros [= H]; exact (DecimalPos.Unsigned.to_uint_nonnil _ H).
Qed.

(** The decimal writing of an integer determines it. *)
Lemma string_of_Z_injective (a b : Z) :
  Driver.string_of_Z a = Driver.string_of_Z b -> a = b.
Proof.
  unfold Driver.string_of_Z. intros H.
  destruct (to_int_proper a) as (A1 & A2), (to_int_proper b) as (B1 & B2).
  pose proof (NilZero.isi _ A1 A2) as Ha.
  pose proof (NilZero.isi _ B1 B2) as Hb.
  rewrite H, Hb in Ha. injection Ha as Ha.
  rewrite <- (DecimalZ.of_to a), <- (DecimalZ.of_to b). now rewrite Ha.
Qed.

(** X11: in one output folder the name of the file written determines S and
    N: runs with different parameters never write to the same file. *)
Theorem outputFile_injective (output : string) (s n s' n' : Z) :
  outputFile output s n = outputFile output s' n' -> s = s' /\ n = n'.
Proof.
  unfold outputFile. intros H.
  apply append_cancel_l in H. cbn in H.
  injection H as H.
  destruct (cut_at "_"%char _ _ _ _
              (string_of_Z_without s "_"%char (or_introl eq_refl))
              (string_of_Z_without s' "_"%char (or_introl eq_refl)) H)
    as (Hs & Hn).
  destruct (cut_at "."%char _ _ _ _
              (string_of_Z_without n "."%char (or_intror eq_refl))
              (string_of_Z_without n' "."%char (or_intror eq_refl)) Hn)
    as (Hn' & _).
  split; apply string_of_Z_injective; assumption.
Qed.

Lemma outputFile_injective_witness :
  outputFile "out" 19 3 = "out/output_19_3.png" /\ (19 = 19 /\ 3 = 3).
Proof.
  split; [reflexivity|].
  apply (outputFile_injective "out" 19 3 19 3). reflexivity.
Defined.

End OutputFileFacts.

(** ** Whole runs, continued *)

Module RunMore.
Import Driver Pipeline LoopFacts.

Section Loop.

Variable E : External.
Variable frames : list (Mat E).
Variable sParam kernel : Z.

Lemma body_quiet (st : State E) :
  quiet (trace st) ->
  match body E frames false sParam kernel st with
  | Normal st' | Raise _ st' | Undef _ st' => quiet (trace st')
  | Fuel => True
  end.
Proof.
  intros Hq. unfold body.
  destruct (nth_error frames (it st)) as [frame|]; [|exact Hq].
  destruct (firstFrame st).
  - destruct (incr (length frames) (it st)); [|exact Hq].
    cbn. unfold quiet. rewrite !Forall_app. repeat split; try assumption;
      repeat constructor.
  - destruct (fdiff st) as [fd|]; [|exact Hq].
    cbn. unfold quiet. rewrite !Forall_app.
    destruct (negb (empty E _)); repeat split; try assumption;
      repeat constructor.
Qed.

Lemma loop_quiet (fuel : nat) (st : State E) :
  quiet (trace st) ->
  match loop E frames false sParam kernel fuel st with
  | Normal st' | Raise _ st' | Undef _ st' => quiet (trace st')
  | Fuel => True
  end.
Proof.
  revert st. induction fuel as [|fuel IH]; intros st Hq; [exact I|].
  cbn [loop].
  destruct (it st =? length frames)%nat; [exact Hq|].
  pose proof (body_quiet st Hq) as Hb.
  destruct (body E frames false sParam kernel st) as [st'| | |];
    try exact Hb.
  destruct (incr (length frames) (it st')); [|exact Hb].
  apply IH. exact Hb.
Qed.

End Loop.

(** X8: without the visualization option a run makes no call to [imshow],
    [cvWaitKey] or [cvDestroyAllWindows], however it ends. *)
Theorem no_window_without_visualization (E : External) (v : Args.VarsMap) :
  Args.visualization v = false ->
  Forall (fun e => window_call e = false) (events (main E v)).
Proof.
  intros Hv. unfold main.
  destruct (Args.help v); [constructor|].
  destruct (Args.extract v) as [e|p] eqn:Hp; [constructor|].
  destruct (negb (isOpened _)); [constructor|].
  assert (Hvp : Args.visu p = false).
  { destruct (ArgsFacts.extract_ok v p Hp) as (_ & _ & _ & _ & ->). exact Hv. }
  unfold processing. rewrite Hvp.
  match goal with
  | |- context [loop E ?fr false ?s ?k ?fu ?st] =>
    pose proof (loop_quiet E fr s k fu st (Forall_nil _)) as Hl;
    destruct (loop E fr false s k fu st) as [st'| | |]
  end; cbn [events]; try exact Hl; [|constructor].
  destruct (History.median (history st') (Args.sParam p)); cbn [events];
    rewrite ?Forall_app; repeat split; try exact Hl; repeat constructor.
Qed.

Lemma no_window_without_visualization_witness :
  Forall (fun e => window_call e = false)
         (events (main (uniform 1 1 [10; 20; 30])
                       (cmdline (Some 2) (Some 1) false false))).
Proof.
  apply no_window_without_visualization. reflexivity.
Defined.

End RunMore.
